(** * ModIOFHE: batch aggregation and asynchronous decryption protocol

    A shallow embedding of [contracts/Mod_IO_FHE.sol] (contract [ModIOFHE]).
    Storage is an explicit record, every external function is a computation
    in a small state-and-revert monad, and the transaction-level semantics
    is a step relation on worlds (storage plus the latest block timestamp). *)

From Stdlib Require Import ZArith Lia Bool.
From stdpp Require Import base option list gmap strings.

Local Open Scope Z_scope.

(** ** Solidity value types *)

Abbreviation address := Z (only parsing).
Abbreviation uint256 := Z (only parsing).
Abbreviation bytes32 := Z (only parsing).
Abbreviation bytes := (list Z) (only parsing).

Definition MAX_UINT256 : Z := 2 ^ 256 - 1.

(** Reading a Solidity mapping: an absent key reads as the zero value. *)
Definition rd {V : Type} (zero : V) (m : gmap Z V) (k : Z) : V :=
  default zero (m !! k).

(** ** The external capabilities

    The encrypted arithmetic ([FHE.add], [FHE.asEuint32],
    [FHE.isInitialized], [FHE.toBytes32]), the proof check
    ([FHE.checkSignatures]) and [keccak256(abi.encode(cts, address(this)))]
    come from libraries outside the repository: they are the fields of a
    class, and the contract is embedded over an arbitrary instance. *)

Class FHECapability : Type := {
  euint32 : Type;
  (** the zero value an unwritten storage slot of type [euint32] reads as *)
  euint32_unset : euint32;
  FHE_isInitialized : euint32 -> bool;
  FHE_asEuint32 : Z -> euint32;
  FHE_add : euint32 -> euint32 -> euint32;
  FHE_toBytes32 : euint32 -> bytes32;
  (** [true] when [FHE.checkSignatures] returns, [false] when it reverts *)
  FHE_checkSignatures : uint256 -> bytes -> bytes -> bool;
  (** [keccak256(abi.encode(cts, a))] *)
  keccak256_encode : list bytes32 -> address -> bytes32;
  (** [address(this)] *)
  this : address
}.

(** ** Errors and events *)

Inductive Error : Type :=
  | NotOwner | NotProvider | Paused | InvalidBatch | RateLimited
  | StaleWrite | ReplayAttempt | InvalidStateHash | BatchFull
  | BatchNotOpen | InvalidRequest
  | RequireFailed (msg : string)      (* require(.., msg) and revert(msg) *)
  | Panic (code : Z)                  (* checked arithmetic, 0x11 *)
  | InvalidInitialization             (* the initializer modifier *)
  | SignatureCheckFailed              (* FHE.checkSignatures reverted *)
  | DecodeFailed.                     (* abi.decode on a short payload *)

Inductive Event : Type :=
  | ProviderAdded (provider : address)
  | ProviderRemoved (provider : address)
  | EvPaused (account : address)
  | Unpaused (account : address)
  | CooldownUpdated (oldInterval newInterval : uint256)
  | BatchOpened (batchId : uint256)
  | BatchClosed (batchId : uint256)
  | ModSubmitted (submitter : address) (batchId : uint256) (modId : bytes32)
  | DecryptionRequested (requestId batchId : uint256) (stateHash : bytes32)
  | DecryptionComplete (requestId batchId totalScore : uint256)
  | RateLimitTriggered (caller : address) (action : string).

Inductive Result (A : Type) : Type :=
  | Ok (a : A)
  | Revert (e : Error).
Arguments Ok {A} a.
Arguments Revert {A} e.

(** [abi.decode(cleartexts, (uint256))]: the first 32 bytes, big endian;
    a payload shorter than one word reverts. *)
Definition be_value (bs : bytes) : Z :=
  fold_left (fun acc b => acc * 256 + b) bs 0.

Definition abi_decode_uint256 (cleartexts : bytes) : option uint256 :=
  if (Z.of_nat (length cleartexts) <? 32) then None
  else Some (be_value (take 32 cleartexts)).

Section Contract.

Context `{FHE : FHECapability}.

(** ** Storage *)

Record Batch : Type := mkBatch {
  isOpen : bool;
  modCount : uint256;
  modIds : list bytes32;
  encryptedAggregate : euint32
}.

Record DecryptionContext : Type := mkContext {
  batchId : uint256;
  stateHash : bytes32;
  processed : bool;
  requester : address
}.

(** The zero values of the two structs. *)
Definition Batch_unset : Batch := mkBatch false 0 [] euint32_unset.
Definition Context_unset : DecryptionContext := mkContext 0 0 false 0.

Record State : Type := mkState {
  (* inherited storage, see [initializer] *)
  owner_ : address;
  initialized_ : bool;
  (* FHE.requestDecryption's request counter *)
  counterRequest : uint256;
  (* the contract's own storage *)
  paused : bool;
  cooldownInterval : uint256;
  currentBatchId : uint256;
  modelVersion : uint256;
  maxBatchSize : uint256;
  isProvider : gmap Z bool;
  lastSubmissionAt : gmap Z Z;
  lastRequestAt : gmap Z Z;
  batches : gmap Z Batch;
  decryptionContexts : gmap Z DecryptionContext;
  encryptedScores : gmap Z euint32;
  modSubmitters : gmap Z Z;
  modBatchIds : gmap Z Z;
  (* events emitted so far, oldest first *)
  log : list Event
}.

Definition MIN_INTERVAL : uint256 := 5.

(** Storage right after deployment: state variable initialisers only. *)
Definition deployed : State :=
  {| owner_ := 0; initialized_ := false; counterRequest := 0;
     paused := false; cooldownInterval := 30; currentBatchId := 0;
     modelVersion := 0; maxBatchSize := 100;
     isProvider := ∅; lastSubmissionAt := ∅; lastRequestAt := ∅;
     batches := ∅; decryptionContexts := ∅; encryptedScores := ∅;
     modSubmitters := ∅; modBatchIds := ∅; log := [] |}.

(** Field updates. *)
Definition set_owner (v : address) (s : State) : State :=
  mkState v (initialized_ s) (counterRequest s) (paused s) (cooldownInterval s)
    (currentBatchId s) (modelVersion s) (maxBatchSize s) (isProvider s)
    (lastSubmissionAt s) (lastRequestAt s) (batches s) (decryptionContexts s)
    (encryptedScores s) (modSubmitters s) (modBatchIds s) (log s).
Definition set_initialized (v : bool) (s : State) : State :=
  mkState (owner_ s) v (counterRequest s) (paused s) (cooldownInterval s)
    (currentBatchId s) (modelVersion s) (maxBatchSize s) (isProvider s)
    (lastSubmissionAt s) (lastRequestAt s) (batches s) (decryptionContexts s)
    (encryptedScores s) (modSubmitters s) (modBatchIds s) (log s).
Definition set_counterRequest (v : uint256) (s : State) : State :=
  mkState (owner_ s) (initialized_ s) v (paused s) (cooldownInterval s)
    (currentBatchId s) (modelVersion s) (maxBatchSize s) (isProvider s)
    (lastSubmissionAt s) (lastRequestAt s) (batches s) (decryptionContexts s)
    (encryptedScores s) (modSubmitters s) (modBatchIds s) (log s).
Definition set_paused (v : bool) (s : State) : State :=
  mkState (owner_ s) (initialized_ s) (counterRequest s) v (cooldownInterval s)
    (currentBatchId s) (modelVersion s) (maxBatchSize s) (isProvider s)
    (lastSubmissionAt s) (lastRequestAt s) (batches s) (decryptionContexts s)
    (encryptedScores s) (modSubmitters s) (modBatchIds s) (log s).
Definition set_cooldownInterval (v : uint256) (s : State) : State :=
  mkState (owner_ s) (initialized_ s) (counterRequest s) (paused s) v
    (currentBatchId s) (modelVersion s) (maxBatchSize s) (isProvider s)
    (lastSubmissionAt s) (lastRequestAt s) (batches s) (decryptionContexts s)
    (encryptedScores s) (modSubmitters s) (modBatchIds s) (log s).
Definition set_currentBatchId (v : uint256) (s : State) : State :=
  mkState (owner_ s) (initialized_ s) (counterRequest s) (paused s)
    (cooldownInterval s) v (modelVersion s) (maxBatchSize s) (isProvider s)
    (lastSubmissionAt s) (lastRequestAt s) (batches s) (decryptionContexts s)
    (encryptedScores s) (modSubmitters s) (modBatchIds s) (log s).
Definition set_modelVersion (v : uint256) (s : State) : State :=
  mkState (owner_ s) (initialized_ s) (counterRequest s) (paused s)
    (cooldownInterval s) (currentBatchId s) v (maxBatchSize s) (isProvider s)
    (lastSubmissionAt s) (lastRequestAt s) (batches s) (decryptionContexts s)
    (encryptedScores s) (modSubmitters s) (modBatchIds s) (log s).
Definition set_maxBatchSize (v : uint256) (s : State) : State :=
  mkState (owner_ s) (initialized_ s) (counterRequest s) (paused s)
    (cooldownInterval s) (currentBatchId s) (modelVersion s) v (isProvider s)
    (lastSubmissionAt s) (lastRequestAt s) (batches s) (decryptionContexts s)
    (encryptedScores s) (modSubmitters s) (modBatchIds s) (log s).
Definition set_isProvider (v : gmap Z bool) (s : State) : State :=
  mkState (owner_ s) (initialized_ s) (counterRequest s) (paused s)
    (cooldownInterval s) (currentBatchId s) (modelVersion s) (maxBatchSize s) v
    (lastSubmissionAt s) (lastRequestAt s) (batches s) (decryptionContexts s)
    (encryptedScores s) (modSubmitters s) (modBatchIds s) (log s).
Definition set_lastSubmissionAt (v : gmap Z Z) (s : State) : State :=
  mkState (owner_ s) (initialized_ s) (counterRequest s) (paused s)
    (cooldownInterval s) (currentBatchId s) (modelVersion s) (maxBatchSize s)
    (isProvider s) v (lastRequestAt s) (batches s) (decryptionContexts s)
    (encryptedScores s) (modSubmitters s) (modBatchIds s) (log s).
Definition set_lastRequestAt (v : gmap Z Z) (s : State) : State :=
  mkState (owner_ s) (initialized_ s) (counterRequest s) (paused s)
    (cooldownInterval s) (currentBatchId s) (modelVersion s) (maxBatchSize s)
    (isProvider s) (lastSubmissionAt s) v (batches s) (decryptionContexts s)
    (encryptedScores s) (modSubmitters s) (modBatchIds s) (log s).
Definition set_batches (v : gmap Z Batch) (s : State) : State :=
  mkState (owner_ s) (initialized_ s) (counterRequest s) (paused s)
    (cooldownInterval s) (currentBatchId s) (modelVersion s) (maxBatchSize s)
    (isProvider s) (lastSubmissionAt s) (lastRequestAt s) v
    (decryptionContexts s) (encryptedScores s) (modSubmitters s)
    (modBatchIds s) (log s).
Definition set_decryptionContexts (v : gmap Z DecryptionContext) (s : State)
  : State :=
  mkState (owner_ s) (initialized_ s) (counterRequest s) (paused s)
    (cooldownInterval s) (currentBatchId s) (modelVersion s) (maxBatchSize s)
    (isProvider s) (lastSubmissionAt s) (lastRequestAt s) (batches s) v
    (encryptedScores s) (modSubmitters s) (modBatchIds s) (log s).
Definition set_encryptedScores (v : gmap Z euint32) (s : State) : State :=
  mkState (owner_ s) (initialized_ s) (counterRequest s) (paused s)
    (cooldownInterval s) (currentBatchId s) (modelVersion s) (maxBatchSize s)
    (isProvider s) (lastSubmissionAt s) (lastRequestAt s) (batches s)
    (decryptionContexts s) v (modSubmitters s) (modBatchIds s) (log s).
Definition set_modSubmitters (v : gmap Z Z) (s : State) : State :=
  mkState (owner_ s) (initialized_ s) (counterRequest s) (paused s)
    (cooldownInterval s) (currentBatchId s) (modelVersion s) (maxBatchSize s)
    (isProvider s) (lastSubmissionAt s) (lastRequestAt s) (batches s)
    (decryptionContexts s) (encryptedScores s) v (modBatchIds s) (log s).
Definition set_modBatchIds (v : gmap Z Z) (s : State) : State :=
  mkState (owner_ s) (initialized_ s) (counterRequest s) (paused s)
    (cooldownInterval s) (currentBatchId s) (modelVersion s) (maxBatchSize s)
    (isProvider s) (lastSubmissionAt s) (lastRequestAt s) (batches s)
    (decryptionContexts s) (encryptedScores s) (modSubmitters s) v (log s).
Definition set_log (v : list Event) (s : State) : State :=
  mkState (owner_ s) (initialized_ s) (counterRequest s) (paused s)
    (cooldownInterval s) (currentBatchId s) (modelVersion s) (maxBatchSize s)
    (isProvider s) (lastSubmissionAt s) (lastRequestAt s) (batches s)
    (decryptionContexts s) (encryptedScores s) (modSubmitters s)
    (modBatchIds s) v.

(** Mapping reads, as the source's [m[k]]. *)
Definition isProvider_at (s : State) (a : address) : bool :=
  rd false (isProvider s) a.
Definition lastSubmissionAt_at (s : State) (a : address) : uint256 :=
  rd 0 (lastSubmissionAt s) a.
Definition lastRequestAt_at (s : State) (a : address) : uint256 :=
  rd 0 (lastRequestAt s) a.
Definition batches_at (s : State) (b : uint256) : Batch :=
  rd Batch_unset (batches s) b.
Definition decryptionContexts_at (s : State) (r : uint256)
  : DecryptionContext :=
  rd Context_unset (decryptionContexts s) r.
Definition encryptedScores_at (s : State) (m : bytes32) : euint32 :=
  rd euint32_unset (encryptedScores s) m.
Definition modSubmitters_at (s : State) (m : bytes32) : address :=
  rd 0 (modSubmitters s) m.
Definition modBatchIds_at (s : State) (m : bytes32) : uint256 :=
  rd 0 (modBatchIds s) m.

(** ** The state-and-revert monad *)

Definition M (A : Type) : Type := State -> Result (A * State).

Definition ret {A} (a : A) : M A := fun s => Ok (a, s).
Definition bind {A B} (m : M A) (k : A -> M B) : M B :=
  fun s => match m s with
           | Ok (a, s') => k a s'
           | Revert e => Revert e
           end.
#[global] Instance M_ret : MRet M := @ret.
#[global] Instance M_bind : MBind M := fun A B k m => bind m k.

Definition revert {A} (e : Error) : M A := fun _ => Revert e.
Definition read {A} (f : State -> A) : M A := fun s => Ok (f s, s).
Definition write (f : State -> State) : M unit := fun s => Ok (tt, f s).
Definition emit (e : Event) : M unit :=
  write (fun s => set_log (log s ++ [e]) s).

(** Checked arithmetic of Solidity 0.8. *)
Definition checked_add (a b : uint256) : M uint256 :=
  if (MAX_UINT256 <? a + b) then revert (Panic 17) else ret (a + b).
Definition checked_sub (a b : uint256) : M uint256 :=
  if (a <? b) then revert (Panic 17) else ret (a - b).

(** ** Modifiers *)

(** Modelled from the spec: the modifier [initializer] and the view
    [owner()] are inherited from a base contract that is not among the
    sources. The spec has the owner as a singleton set at initialization
    and [initialize] callable once: the first call records the caller as
    owner, every later call reverts. *)
Definition initializer (sender : address) : M unit :=
  i ← read initialized_;
  if i : bool then revert InvalidInitialization
  else write (fun s => set_owner sender (set_initialized true s)).

Definition owner : M address := read owner_.

Definition onlyOwner (sender : address) : M unit :=
  o ← owner;
  if negb (sender =? o) then revert NotOwner else ret tt.

Definition onlyProvider (sender : address) : M unit :=
  p ← read (fun s => isProvider_at s sender);
  if negb p then revert NotProvider else ret tt.

Definition whenNotPaused : M unit :=
  p ← read paused;
  if p : bool then revert Paused else ret tt.

Definition rateLimited (action : string) (sender : address) (now : uint256)
  : M unit :=
  let currentTime := now in
  if String.eqb action "submit" then
    last ← read (fun s => lastSubmissionAt_at s sender);
    elapsed ← checked_sub currentTime last;
    interval ← read cooldownInterval;
    if elapsed <? interval then revert RateLimited
    else write (fun s =>
           set_lastSubmissionAt (<[sender := currentTime]> (lastSubmissionAt s)) s)
  else if String.eqb action "request" then
    last ← read (fun s => lastRequestAt_at s sender);
    elapsed ← checked_sub currentTime last;
    interval ← read cooldownInterval;
    if elapsed <? interval then revert RateLimited
    else write (fun s =>
           set_lastRequestAt (<[sender := currentTime]> (lastRequestAt s)) s)
  else ret tt.

(** ** Internal helpers *)

Definition _hashCiphertexts (cts : list bytes32) : bytes32 :=
  keccak256_encode cts this.

Definition _initIfNeeded (x : euint32) : euint32 :=
  if negb (FHE_isInitialized x) then FHE_asEuint32 0 else x.

Definition _requireInitialized (x : euint32) (tag : string) : M unit :=
  if negb (FHE_isInitialized x)
  then revert (RequireFailed (tag +:+ " not initialized"))
  else ret tt.

Definition _openBatch (batchId : uint256) : M unit :=
  write (fun s =>
    set_batches
      (<[batchId := {| isOpen := true; modCount := 0; modIds := [];
                       encryptedAggregate := FHE_asEuint32 0 |}]> (batches s)) s);;
  emit (BatchOpened batchId).

(** The loop of [requestBatchDecryption] over [batch.modIds], from index 0. *)
Fixpoint aggregate_loop (ids : list bytes32) (aggregate : euint32)
  : M euint32 :=
  match ids with
  | [] => ret aggregate
  | modId :: rest =>
      score ← read (fun s => encryptedScores_at s modId);
      _requireInitialized score "score";;
      aggregate_loop rest (FHE_add aggregate score)
  end.

(** Modelled from the spec: [FHE.requestDecryption] belongs to the external
    library; the spec has it return an oracle-assigned request identifier
    under which the context is stored. The model hands out the current
    value of a request counter and increments it, so that every request
    gets an identifier of its own. *)
Definition FHE_requestDecryption (cts : list bytes32) : M uint256 :=
  requestId ← read counterRequest;
  next ← checked_add requestId 1;
  write (set_counterRequest next);;
  ret requestId.

(** ** External functions *)

(** [__SepoliaConfig_init] records the addresses of the coprocessor
    contracts, which no function of [ModIOFHE] reads. *)
Definition __SepoliaConfig_init : M unit := ret tt.

Definition initialize (sender : address) : M unit :=
  initializer sender;;
  __SepoliaConfig_init;;
  o ← owner;
  write (fun s => set_isProvider (<[o := true]> (isProvider s)) s);;
  write (set_modelVersion 1);;
  write (set_currentBatchId 1);;
  cur ← read currentBatchId;
  _openBatch cur.

Definition setCooldownInterval (sender : address) (newInterval : uint256)
  : M unit :=
  onlyOwner sender;;
  (if negb (MIN_INTERVAL <=? newInterval)
   then revert (RequireFailed "Interval too small") else ret tt);;
  oldInterval ← read cooldownInterval;
  write (set_cooldownInterval newInterval);;
  emit (CooldownUpdated oldInterval newInterval).

Definition setMaxBatchSize (sender : address) (newSize : uint256) : M unit :=
  onlyOwner sender;;
  (if negb (0 <? newSize) then revert (RequireFailed "Invalid size")
   else ret tt);;
  write (set_maxBatchSize newSize).

Definition pause (sender : address) : M unit :=
  onlyOwner sender;;
  whenNotPaused;;
  write (set_paused true);;
  emit (EvPaused sender).

Definition unpause (sender : address) : M unit :=
  onlyOwner sender;;
  p ← read paused;
  (if negb p then revert (RequireFailed "Not paused") else ret tt);;
  write (set_paused false);;
  emit (Unpaused sender).

Definition addProvider (sender : address) (provider : address) : M unit :=
  onlyOwner sender;;
  write (fun s => set_isProvider (<[provider := true]> (isProvider s)) s);;
  emit (ProviderAdded provider).

Definition removeProvider (sender : address) (provider : address) : M unit :=
  onlyOwner sender;;
  write (fun s => set_isProvider (<[provider := false]> (isProvider s)) s);;
  emit (ProviderRemoved provider).

Definition openBatch (sender : address) : M unit :=
  onlyOwner sender;;
  cur ← read currentBatchId;
  next ← checked_add cur 1;
  write (set_currentBatchId next);;
  cur' ← read currentBatchId;
  _openBatch cur'.

Definition closeBatch (sender : address) (batchId : uint256) : M unit :=
  onlyOwner sender;;
  batch ← read (fun s => batches_at s batchId);
  (if negb (isOpen batch) then revert InvalidBatch else ret tt);;
  write (fun s =>
    set_batches
      (<[batchId := {| isOpen := false; modCount := modCount batch;
                       modIds := modIds batch;
                       encryptedAggregate := encryptedAggregate batch |}]>
         (batches s)) s);;
  emit (BatchClosed batchId).

Definition submitEncryptedMod_body (sender : address) (modId : bytes32)
    (encryptedScore : euint32) : M unit :=
  submitter ← read (fun s => modSubmitters_at s modId);
  (if negb (submitter =? 0) then revert StaleWrite else ret tt);;
  cur ← read currentBatchId;
  batch ← read (fun s => batches_at s cur);
  (if negb (isOpen batch) then revert BatchNotOpen else ret tt);;
  limit ← read maxBatchSize;
  (if limit <=? modCount batch then revert BatchFull else ret tt);;
  write (fun s => set_modSubmitters (<[modId := sender]> (modSubmitters s)) s);;
  write (fun s => set_modBatchIds (<[modId := cur]> (modBatchIds s)) s);;
  write (fun s =>
    set_encryptedScores (<[modId := encryptedScore]> (encryptedScores s)) s);;
  count' ← checked_add (modCount batch) 1;
  write (fun s =>
    set_batches
      (<[cur := {| isOpen := isOpen batch; modCount := count';
                   modIds := modIds batch ++ [modId];
                   encryptedAggregate := encryptedAggregate batch |}]>
         (batches s)) s);;
  emit (ModSubmitted sender cur modId).

Definition submitEncryptedMod (sender : address) (now : uint256)
    (modId : bytes32) (encryptedScore : euint32) : M unit :=
  onlyProvider sender;;
  whenNotPaused;;
  rateLimited "submit" sender now;;
  submitEncryptedMod_body sender modId encryptedScore.

Definition requestBatchDecryption_body (sender : address) (batchId : uint256)
  : M unit :=
  batch ← read (fun s => batches_at s batchId);
  (if modCount batch =? 0 then revert InvalidBatch else ret tt);;
  aggregate ← aggregate_loop (modIds batch)
                 (_initIfNeeded (encryptedAggregate batch));
  let cts := [FHE_toBytes32 aggregate] in
  let stateHash := _hashCiphertexts cts in
  requestId ← FHE_requestDecryption cts;
  write (fun s =>
    set_decryptionContexts
      (<[requestId := {| batchId := batchId; stateHash := stateHash;
                         processed := false; requester := sender |}]>
         (decryptionContexts s)) s);;
  emit (DecryptionRequested requestId batchId stateHash).

Definition requestBatchDecryption (sender : address) (now : uint256)
    (batchId : uint256) : M unit :=
  whenNotPaused;;
  rateLimited "request" sender now;;
  requestBatchDecryption_body sender batchId.

Definition handleDecryptionCallback (sender : address) (requestId : uint256)
    (cleartexts proof : bytes) : M unit :=
  ctx ← read (fun s => decryptionContexts_at s requestId);
  (if processed ctx then revert ReplayAttempt else ret tt);;
  batch ← read (fun s => batches_at s (batchId ctx));
  let currentAggregate := _initIfNeeded (encryptedAggregate batch) in
  let currentCts := [FHE_toBytes32 currentAggregate] in
  let currentStateHash := _hashCiphertexts currentCts in
  (if negb (currentStateHash =? stateHash ctx) then revert InvalidStateHash
   else ret tt);;
  (if negb (FHE_checkSignatures requestId cleartexts proof)
   then revert SignatureCheckFailed else ret tt);;
  match abi_decode_uint256 cleartexts with
  | None => revert DecodeFailed
  | Some totalScore =>
      write (fun s =>
        set_decryptionContexts
          (<[requestId := {| batchId := batchId ctx;
                             stateHash := stateHash ctx;
                             processed := true;
                             requester := requester ctx |}]>
             (decryptionContexts s)) s);;
      emit (DecryptionComplete requestId (batchId ctx) totalScore)
  end.

End Contract.

(** ** Transactions

    One transaction is one external call, made by a sender at a block
    timestamp. A call that reverts leaves the storage as it was. *)

Section Transactions.

Context `{FHE : FHECapability}.

Inductive Call : Type :=
  | CInitialize
  | CSetCooldownInterval (newInterval : uint256)
  | CSetMaxBatchSize (newSize : uint256)
  | CPause
  | CUnpause
  | CAddProvider (provider : address)
  | CRemoveProvider (provider : address)
  | COpenBatch
  | CCloseBatch (batchId : uint256)
  | CSubmitEncryptedMod (modId : bytes32) (encryptedScore : euint32)
  | CRequestBatchDecryption (batchId : uint256)
  | CHandleDecryptionCallback (requestId : uint256) (cleartexts proof : bytes).

Definition dispatch (c : Call) (sender : address) (now : uint256) : M unit :=
  match c with
  | CInitialize => initialize sender
  | CSetCooldownInterval n => setCooldownInterval sender n
  | CSetMaxBatchSize n => setMaxBatchSize sender n
  | CPause => pause sender
  | CUnpause => unpause sender
  | CAddProvider a => addProvider sender a
  | CRemoveProvider a => removeProvider sender a
  | COpenBatch => openBatch sender
  | CCloseBatch b => closeBatch sender b
  | CSubmitEncryptedMod m e => submitEncryptedMod sender now m e
  | CRequestBatchDecryption b => requestBatchDecryption sender now b
  | CHandleDecryptionCallback r c p => handleDecryptionCallback sender r c p
  end.

(** The storage after running [m]: the new storage, or the old one when
    [m] reverts. *)
Definition run (m : M unit) (s : State) : State :=
  match m s with
  | Ok (_, s') => s'
  | Revert _ => s
  end.

Definition succeeds {A} (m : M A) (s : State) : bool :=
  match m s with
  | Ok _ => true
  | Revert _ => false
  end.

Definition in_uint256 (x : Z) : bool := (0 <=? x) && (x <=? MAX_UINT256).

(** Arguments of type [uint256] and [bytes32] are 256-bit words. *)
Definition wf_call (c : Call) : bool :=
  match c with
  | CSetCooldownInterval n | CSetMaxBatchSize n => in_uint256 n
  | CCloseBatch b | CRequestBatchDecryption b => in_uint256 b
  | CSubmitEncryptedMod m _ => in_uint256 m
  | CHandleDecryptionCallback r _ _ => in_uint256 r
  | _ => true
  end.

Record World : Type := mkWorld {
  w_state : State;
  w_time : uint256      (* timestamp of the latest block *)
}.

Record Tx : Type := mkTx {
  tx_sender : address;
  tx_time : uint256;
  tx_call : Call
}.

(** A transaction is admissible when its sender is a real account (never
    [address(0)]), block timestamps do not go back, and its arguments fit
    their types. *)
Definition admissible (w : World) (t : Tx) : Prop :=
  tx_sender t ≠ 0 ∧ w_time w ≤ tx_time t ∧ wf_call (tx_call t) = true.

Definition apply_tx (w : World) (t : Tx) : World :=
  {| w_state := run (dispatch (tx_call t) (tx_sender t) (tx_time t)) (w_state w);
     w_time := tx_time t |}.

Definition genesis : World := {| w_state := deployed; w_time := 0 |}.

(** Worlds reached from [w0] by admissible transactions that all satisfy
    [allowed]. *)
Inductive reaches_under (allowed : World -> Tx -> Prop) (w0 : World)
  : World -> Prop :=
  | reaches_refl : reaches_under allowed w0 w0
  | reaches_step w t :
      reaches_under allowed w0 w ->
      admissible w t -> allowed w t ->
      reaches_under allowed w0 (apply_tx w t).

Definition reaches : World -> World -> Prop :=
  reaches_under (fun _ _ => True).

Definition reachable (w : World) : Prop := reaches genesis w.

(** A transaction in which the owner sets [maxBatchSize] below the count
    of a batch. *)
Definition lowers_below_a_count (w : World) (t : Tx) : Prop :=
  match tx_call t with
  | CSetMaxBatchSize n =>
      tx_sender t = owner_ (w_state w) ∧
      ∃ b, n < modCount (batches_at (w_state w) b)
  | _ => False
  end.

(** ** The aggregate as the specification words it

    "folds the encrypted-add operation over every submission's
    encrypted-score handle in the batch's recorded order, starting from an
    explicit zero-handle if the batch has no prior aggregate". *)
Definition spec_recomputeAggregate (s : State) (b : uint256) : euint32 :=
  let batch := batches_at s b in
  fold_left FHE_add
    (map (encryptedScores_at s) (modIds batch))
    (if FHE_isInitialized (encryptedAggregate batch)
     then encryptedAggregate batch else FHE_asEuint32 0).

Definition spec_stateHash (s : State) (b : uint256) : bytes32 :=
  keccak256_encode [FHE_toBytes32 (spec_recomputeAggregate s b)] this.

End Transactions.

(** ** A symbolic instance of the capabilities

    Ciphertexts are terms that remember how they were built; a handle is
    the code of its term, the hash is injective on one-element lists and a
    proof is valid when it is the request id followed by the payload. It is
    used to run the contract on concrete scenarios. *)

Module Sym.

Inductive ct : Type :=
  | Unset
  | Trivial (v : Z)
  | Input (v : Z) (nonce : Z)
  | Sum (a b : ct).

(** The plaintext a ciphertext stands for (arithmetic of [euint32]). *)
Fixpoint plain (c : ct) : Z :=
  match c with
  | Unset => 0
  | Trivial v => v mod 2 ^ 32
  | Input v _ => v mod 2 ^ 32
  | Sum a b => (plain a + plain b) mod 2 ^ 32
  end.

Definition pair (x y : Z) : Z := (x + y) * (x + y + 1) / 2 + y.

Fixpoint handle (c : ct) : Z :=
  match c with
  | Unset => 0
  | Trivial v => 4 * Z.abs v + 1
  | Input v n => 4 * pair (Z.abs v) (Z.abs n) + 2
  | Sum a b => 4 * pair (handle a) (handle b) + 3
  end.

Definition initialized (c : ct) : bool :=
  match c with
  | Unset => false
  | _ => true
  end.

(** An injection of the integers into the positive ones. *)
Definition zcode (x : Z) : Z := if 0 <=? x then 2 * x + 1 else - 2 * x.

Fixpoint hash (cts : list Z) (a : Z) : Z :=
  match cts with
  | [] => zcode a
  | x :: rest => zcode x + 2 * hash rest a
  end.

Definition sign (requestId : Z) (cleartexts : list Z) : list Z :=
  requestId :: cleartexts.

Definition verify (requestId : Z) (cleartexts proof : list Z) : bool :=
  bool_decide (proof = sign requestId cleartexts).

(** [abi.encode(v)] for a [uint256] smaller than 256. *)
Definition word (v : Z) : list Z := replicate 31 0 ++ [v].

#[export] Instance capability : FHECapability :=
  {| euint32 := ct;
     euint32_unset := Unset;
     FHE_isInitialized := initialized;
     FHE_asEuint32 := Trivial;
     FHE_add := Sum;
     FHE_toBytes32 := handle;
     FHE_checkSignatures := verify;
     keccak256_encode := hash;
     this := 4919 |}.

Definition alice : Z := 10.    (* deployer, owner and provider *)
Definition bob : Z := 11.      (* an account that requests decryptions *)
Definition carol : Z := 12.    (* an account with no role *)

End Sym.

(** ** A cleartext stand-in for the capabilities

    As in a local test double of the encrypted arithmetic, a handle is its
    plaintext plus one (zero is the unset handle), so equal plaintexts
    share a handle. Hash and proofs are those of [Sym]. *)

Module Mock.

Definition enc (v : Z) : Z := v mod 2 ^ 32 + 1.
Definition dec (h : Z) : Z := if h =? 0 then 0 else h - 1.
Definition add (a b : Z) : Z := enc (dec a + dec b).

#[export] Instance capability : FHECapability :=
  {| euint32 := Z;
     euint32_unset := 0;
     FHE_isInitialized := fun h => negb (h =? 0);
     FHE_asEuint32 := enc;
     FHE_add := add;
     FHE_toBytes32 := fun h => h;
     FHE_checkSignatures := Sym.verify;
     keccak256_encode := Sym.hash;
     this := 4919 |}.

End Mock.

(** ** Invariants of the reachable worlds *)

Section Invariants.

Context `{FHE : FHECapability}.

Record Inv (w : World) : Prop := {
  inv_time : 0 ≤ w_time w;
  inv_cur : 0 ≤ currentBatchId (w_state w);
  (* before [initialize] there is no owner, no provider and no batch *)
  inv_preinit :
    initialized_ (w_state w) = false →
    owner_ (w_state w) = 0 ∧ currentBatchId (w_state w) = 0 ∧
    batches (w_state w) = ∅ ∧ isProvider (w_state w) = ∅;
  (* the batches written so far are 1 .. currentBatchId *)
  inv_dom : ∀ b ba, batches (w_state w) !! b = Some ba →
    1 ≤ b ≤ currentBatchId (w_state w);
  inv_agg : ∀ b ba, batches (w_state w) !! b = Some ba →
    encryptedAggregate ba = FHE_asEuint32 0;
  inv_len : ∀ b ba, batches (w_state w) !! b = Some ba →
    modCount ba = Z.of_nat (length (modIds ba));
  inv_sub : ∀ a t, lastSubmissionAt (w_state w) !! a = Some t → t ≤ w_time w;
  inv_req : ∀ a t, lastRequestAt (w_state w) !! a = Some t → t ≤ w_time w;
  inv_max : 0 < maxBatchSize (w_state w) ≤ MAX_UINT256
}.

(** Every batch holds at most [maxBatchSize] submissions. *)
Definition within_capacity (s : State) : Prop :=
  ∀ b, modCount (batches_at s b) ≤ maxBatchSize s.

(** The cooldown check of [rateLimited] passes for a last-activity stamp. *)
Definition cooldown_over (s : State) (last now : uint256) : Prop :=
  last ≤ now ∧ cooldownInterval s ≤ now - last.

(** Handles and hashes without collisions: what the contract may expect
    of the external capabilities. *)
Class IdealCapability : Prop := {
  unset_not_initialized : FHE_isInitialized euint32_unset = false;
  add_is_fresh : ∀ x y,
    FHE_toBytes32 (FHE_add x y) ≠ FHE_toBytes32 (FHE_asEuint32 0);
  keccak_injective : ∀ x y a,
    keccak256_encode [x] a = keccak256_encode [y] a → x = y;
  keccak_nonzero : ∀ cts a, keccak256_encode cts a ≠ 0
}.


(** Running a list of transactions from a world. *)
Definition play (w : World) (ts : list Tx) : World :=
  fold_left apply_tx ts w.

(** Decidable admissibility, to replay concrete transaction lists. *)
Definition admissibleb (w : World) (t : Tx) : bool :=
  negb (tx_sender t =? 0) && (w_time w <=? tx_time t) && wf_call (tx_call t).

Fixpoint playable (w : World) (ts : list Tx) : bool :=
  match ts with
  | [] => true
  | t :: rest => admissibleb w t && playable (apply_tx w t) rest
  end.

(** Every transaction of the list is admissible and satisfies [allowed]
    in the world it is sent to. *)
Fixpoint steps_allowed (allowed : World → Tx → Prop) (w : World)
    (ts : list Tx) : Prop :=
  match ts with
  | [] => True
  | t :: rest =>
      admissible w t ∧ allowed w t ∧ steps_allowed allowed (apply_tx w t) rest
  end.

End Invariants.

(** ** Concrete scenarios, over the symbolic capabilities *)

Module Scenario.

Import Sym.

(** One submission, then a decryption request for batch 1. *)
Definition one_submission : list Tx :=
  [ mkTx alice 100 CInitialize;
    mkTx alice 100 (CSubmitEncryptedMod 1 (Input 7 1));
    mkTx bob 100 (CRequestBatchDecryption 1) ].

(** The scenario of the specification: "m1" with 10, "m2" with 5, then a
    decryption request for batch 1. *)
Definition two_submissions : list Tx :=
  [ mkTx alice 100 CInitialize;
    mkTx alice 100 (CSubmitEncryptedMod 1 (Input 10 1));
    mkTx alice 130 (CSubmitEncryptedMod 2 (Input 5 2));
    mkTx alice 130 (CRequestBatchDecryption 1) ].

(** The owner lowers the maximum below what batch 1 already holds. *)
Definition lowered_maximum : list Tx :=
  [ mkTx alice 100 CInitialize;
    mkTx alice 100 (CSubmitEncryptedMod 1 (Input 10 1));
    mkTx alice 130 (CSubmitEncryptedMod 2 (Input 5 2));
    mkTx alice 131 (CSetMaxBatchSize 1) ].

(** Right after [initialize]: batch 1 is open, alice is owner. *)
Definition initialized_only : list Tx := [ mkTx alice 100 CInitialize ].

(** ["m1"] recorded at time 100. *)
Definition one_recorded : list Tx :=
  [ mkTx alice 100 CInitialize;
    mkTx alice 100 (CSubmitEncryptedMod 1 (Input 10 1)) ].

(** Batch 1 closed by the owner while it is the current batch. *)
Definition closed_current : list Tx :=
  [ mkTx alice 100 CInitialize;
    mkTx alice 101 (CCloseBatch 1) ].

(** The owner lowers the maximum to what batch 1 holds: one submission. *)
Definition lowered_to_the_count : list Tx :=
  [ mkTx alice 100 CInitialize;
    mkTx alice 100 (CSubmitEncryptedMod 1 (Input 10 1));
    mkTx alice 131 (CSetMaxBatchSize 1) ].

End Scenario.

Module MockScenario.

Import Mock.

(** One submission whose score encrypts 0, then a decryption request for
    batch 1 by bob: request 0 is pending. *)
Definition zero_score : list Tx :=
  [ mkTx Sym.alice 100 CInitialize;
    mkTx Sym.alice 100 (CSubmitEncryptedMod 1 (enc 0));
    mkTx Sym.bob 100 (CRequestBatchDecryption 1) ].

(** ... and the callback for request 0, sent by carol with a valid proof. *)
Definition zero_score_finalized : list Tx :=
  zero_score ++
  [ mkTx Sym.carol 150
      (CHandleDecryptionCallback 0 (Sym.word 0) (Sym.sign 0 (Sym.word 0))) ].

End MockScenario.

(** ** The event log, the submission registry and the issued requests *)

(** The mod identifiers of the [ModSubmitted] events for batch [b],
    oldest first. *)
Fixpoint submitted_in_log (b : uint256) (l : list Event) : list bytes32 :=
  match l with
  | [] => []
  | ModSubmitted _ b' m :: rest =>
      if b' =? b then m :: submitted_in_log b rest
      else submitted_in_log b rest
  | _ :: rest => submitted_in_log b rest
  end.

Definition is_RateLimitTriggered (e : Event) : bool :=
  match e with
  | RateLimitTriggered _ _ => true
  | _ => false
  end.

Section MoreInvariants.

Context `{FHE : FHECapability}.

(** The submission registry and the batch lists agree. *)
Record Registry (s : State) : Prop := {
  reg_preinit : initialized_ s = false → modSubmitters s = ∅;
  reg_member : ∀ b ba m, batches s !! b = Some ba → m ∈ modIds ba →
    modSubmitters_at s m ≠ 0 ∧ modBatchIds s !! m = Some b;
  reg_recorded : ∀ m a, modSubmitters s !! m = Some a →
    a ≠ 0 ∧ is_Some (encryptedScores s !! m) ∧
    ∃ b ba, modBatchIds s !! m = Some b ∧ batches s !! b = Some ba ∧
            m ∈ modIds ba;
  reg_nodup : ∀ b ba, batches s !! b = Some ba → NoDup (modIds ba)
}.

(** Every issued request id has a context, asked for by a real account
    for a batch that had submissions. *)
Definition contexts_issued (s : State) : Prop :=
  0 ≤ counterRequest s ∧
  (initialized_ s = false → counterRequest s = 0) ∧
  ∀ r, 0 ≤ r < counterRequest s →
    ∃ ctx ba, decryptionContexts s !! r = Some ctx ∧ requester ctx ≠ 0 ∧
              batches s !! batchId ctx = Some ba ∧ 0 < modCount ba.

End MoreInvariants.

Module MoreScenario.

Import Sym.

(** ["m1"] lands in batch 1, then the owner closes the batch. *)
Definition closed_with_submission : list Tx :=
  [ mkTx alice 100 CInitialize;
    mkTx alice 100 (CSubmitEncryptedMod 1 (Input 10 1));
    mkTx alice 101 (CCloseBatch 1) ].

(** ... after which the owner opens batch 2, ["m2"] lands there and bob
    requests the decryption of batch 1. *)
Definition after_the_close : list Tx :=
  [ mkTx alice 102 COpenBatch;
    mkTx alice 130 (CSubmitEncryptedMod 2 (Input 5 2));
    mkTx bob 131 (CRequestBatchDecryption 1) ].

(** ["m1"] is submitted with a handle that was never initialized. *)
Definition unset_score : list Tx :=
  [ mkTx alice 100 CInitialize;
    mkTx alice 100 (CSubmitEncryptedMod 1 Unset) ].

End MoreScenario.

(** ** The web client: counters and filters

    The pure expressions of [frontend/web/src/App.tsx]. Of a mod record
    only the string fields are kept; the numeric fields are read by none
    of the expressions below. *)

Module App.

Record FHEMod := mkMod {
  id : string;
  name : string;
  encryptedData : string;
  owner : string;
  category : string;
  game : string;
  status : string
}.

Definition verifiedCount (mods : list FHEMod) : nat :=
  length (filter (fun m => status m = "verified") mods).
Definition pendingCount (mods : list FHEMod) : nat :=
  length (filter (fun m => status m = "pending") mods).
Definition rejectedCount (mods : list FHEMod) : nat :=
  length (filter (fun m => status m = "rejected") mods).

(** The type of the [status] field in [interface FHEMod]. *)
Definition status_typed (m : FHEMod) : Prop :=
  status m = "pending" ∨ status m = "verified" ∨ status m = "rejected".

Section Filters.
(** [String.prototype.toLowerCase] and [text.includes(query)]. *)
Variable toLowerCase : string → string.
Variable includes : string → string → bool.

Definition matches_search (searchQuery : string) (mod_ : FHEMod) : bool :=
  includes (toLowerCase (name mod_)) (toLowerCase searchQuery) ||
  includes (toLowerCase (game mod_)) (toLowerCase searchQuery) ||
  includes (toLowerCase (category mod_)) (toLowerCase searchQuery).

(** The body of the filtering effect: the list handed to
    [setFilteredMods]. An empty [searchQuery] is falsy. *)
Definition filteredMods (searchQuery categoryFilter statusFilter : string)
    (mods : list FHEMod) : list FHEMod :=
  let result := mods in
  let result :=
    if bool_decide (searchQuery ≠ "")
    then filter (fun mod_ => matches_search searchQuery mod_ = true) result
    else result in
  let result :=
    if bool_decide (categoryFilter ≠ "all")
    then filter (fun mod_ => category mod_ = categoryFilter) result
    else result in
  let result :=
    if bool_decide (statusFilter ≠ "all")
    then filter (fun mod_ => status mod_ = statusFilter) result
    else result in
  result.

End Filters.

End App.

(** * Proofs *)

Ltac unfold_monad :=
  unfold checked_add, checked_sub, emit in *;
  unfold mbind, M_bind, bind, mret, M_ret, ret, read, write, revert in *.

Ltac split_cases := repeat (case_match; simplify_eq/=; try done).

Ltac boolean_facts :=
  repeat match goal with
  | H : negb _ = false |- _ => apply negb_false_iff in H
  | H : negb _ = true |- _ => apply negb_true_iff in H
  | H : (_ && _) = true |- _ => apply andb_true_iff in H; destruct H
  | H : (_ =? _) = true |- _ => apply Z.eqb_eq in H
  | H : (_ =? _) = false |- _ => apply Z.eqb_neq in H
  | H : (_ <? _) = true |- _ => apply Z.ltb_lt in H
  | H : (_ <? _) = false |- _ => apply Z.ltb_ge in H
  | H : (_ <=? _) = true |- _ => apply Z.leb_le in H
  | H : (_ <=? _) = false |- _ => apply Z.leb_gt in H
  end.

Ltac map_facts :=
  repeat match goal with
  | H : <[_ := _]> _ !! _ = Some _ |- _ =>
      apply lookup_insert_Some in H; destruct H as [[? ?]|[? ?]];
      simplify_eq/=
  end.

Create Rewrite HintDb closed_forms.

Section ClosedForms.
Context `{FHE : FHECapability}.

(** *** Closed forms of the modifiers and functions *)

Lemma aggregate_loop_eq ids agg s :
  aggregate_loop ids agg s =
    if forallb (fun m => FHE_isInitialized (encryptedScores_at s m)) ids
    then Ok (fold_left FHE_add (map (encryptedScores_at s) ids) agg, s)
    else Revert (RequireFailed "score not initialized").
Proof.
  revert agg. induction ids as [|m ids IH]; intros agg; simpl; [done|].
  unfold _requireInitialized. unfold_monad.
  destruct (FHE_isInitialized (encryptedScores_at s m)); simpl; [apply IH | done].
Qed.

Lemma rateLimited_submit_eq sender now s :
  rateLimited "submit" sender now s =
    if now <? lastSubmissionAt_at s sender then Revert (Panic 17)
    else if now - lastSubmissionAt_at s sender <? cooldownInterval s
         then Revert RateLimited
         else Ok (tt, set_lastSubmissionAt
                        (<[sender := now]> (lastSubmissionAt s)) s).
Proof. unfold rateLimited. simpl. unfold_monad. split_cases. Qed.

Lemma rateLimited_request_eq sender now s :
  rateLimited "request" sender now s =
    if now <? lastRequestAt_at s sender then Revert (Panic 17)
    else if now - lastRequestAt_at s sender <? cooldownInterval s
         then Revert RateLimited
         else Ok (tt, set_lastRequestAt
                        (<[sender := now]> (lastRequestAt s)) s).
Proof. unfold rateLimited. simpl. unfold_monad. split_cases. Qed.

Lemma initialize_eq sender s :
  initialize sender s =
    if initialized_ s then Revert InvalidInitialization
    else Ok (tt,
      set_log (log s ++ [BatchOpened 1])
        (set_batches
           (<[1 := mkBatch true 0 [] (FHE_asEuint32 0)]> (batches s))
           (set_currentBatchId 1
              (set_modelVersion 1
                 (set_isProvider (<[sender := true]> (isProvider s))
                    (set_owner sender (set_initialized true s))))))).
Proof.
  unfold initialize, initializer, __SepoliaConfig_init, owner, _openBatch.
  unfold_monad.
  destruct (initialized_ s); done.
Qed.

Lemma openBatch_eq sender s :
  openBatch sender s =
    if negb (sender =? owner_ s) then Revert NotOwner
    else if MAX_UINT256 <? currentBatchId s + 1 then Revert (Panic 17)
    else Ok (tt,
      set_log (log s ++ [BatchOpened (currentBatchId s + 1)])
        (set_batches
           (<[currentBatchId s + 1 := mkBatch true 0 [] (FHE_asEuint32 0)]>
              (batches s))
           (set_currentBatchId (currentBatchId s + 1) s))).
Proof.
  unfold openBatch, onlyOwner, owner, _openBatch. unfold_monad. split_cases.
Qed.

Lemma closeBatch_eq sender b s :
  closeBatch sender b s =
    if negb (sender =? owner_ s) then Revert NotOwner
    else if negb (isOpen (batches_at s b)) then Revert InvalidBatch
    else Ok (tt,
      set_log (log s ++ [BatchClosed b])
        (set_batches
           (<[b := mkBatch false (modCount (batches_at s b))
                    (modIds (batches_at s b))
                    (encryptedAggregate (batches_at s b))]> (batches s)) s)).
Proof.
  unfold closeBatch, onlyOwner, owner. unfold_monad. split_cases.
Qed.

Lemma submitEncryptedMod_body_eq sender m e s :
  submitEncryptedMod_body sender m e s =
    let cur := currentBatchId s in
    let batch := batches_at s cur in
    if negb (modSubmitters_at s m =? 0) then Revert StaleWrite
    else if negb (isOpen batch) then Revert BatchNotOpen
    else if maxBatchSize s <=? modCount batch then Revert BatchFull
    else if MAX_UINT256 <? modCount batch + 1 then Revert (Panic 17)
    else Ok (tt,
      set_log (log s ++ [ModSubmitted sender cur m])
        (set_batches
           (<[cur := mkBatch (isOpen batch) (modCount batch + 1)
                      (modIds batch ++ [m]) (encryptedAggregate batch)]>
              (batches s))
           (set_encryptedScores (<[m := e]> (encryptedScores s))
              (set_modBatchIds (<[m := cur]> (modBatchIds s))
                 (set_modSubmitters (<[m := sender]> (modSubmitters s)) s))))).
Proof.
  unfold submitEncryptedMod_body. unfold_monad. split_cases.
Qed.

Lemma submitEncryptedMod_eq sender now m e s :
  submitEncryptedMod sender now m e s =
    if negb (isProvider_at s sender) then Revert NotProvider
    else if paused s then Revert Paused
    else match rateLimited "submit" sender now s with
         | Revert err => Revert err
         | Ok (_, s1) => submitEncryptedMod_body sender m e s1
         end.
Proof.
  unfold submitEncryptedMod, onlyProvider, whenNotPaused. unfold_monad.
  split_cases.
Qed.

Lemma requestBatchDecryption_body_eq sender b s :
  requestBatchDecryption_body sender b s =
    let batch := batches_at s b in
    if modCount batch =? 0 then Revert InvalidBatch
    else if forallb (fun m => FHE_isInitialized (encryptedScores_at s m))
              (modIds batch)
    then
      if MAX_UINT256 <? counterRequest s + 1 then Revert (Panic 17)
      else Ok (tt,
        set_log (log s ++ [DecryptionRequested (counterRequest s) b
                             (spec_stateHash s b)])
          (set_decryptionContexts
             (<[counterRequest s :=
                  mkContext b (spec_stateHash s b) false sender]>
                (decryptionContexts s))
             (set_counterRequest (counterRequest s + 1) s)))
    else Revert (RequireFailed "score not initialized").
Proof.
  unfold requestBatchDecryption_body, FHE_requestDecryption. unfold_monad.
  cbv zeta. destruct (modCount (batches_at s b) =? 0); [done|]. simpl.
  rewrite aggregate_loop_eq.
  unfold spec_stateHash, spec_recomputeAggregate, _hashCiphertexts, _initIfNeeded.
  split_cases.
Qed.

Lemma requestBatchDecryption_eq sender now b s :
  requestBatchDecryption sender now b s =
    if paused s then Revert Paused
    else match rateLimited "request" sender now s with
         | Revert err => Revert err
         | Ok (_, s1) => requestBatchDecryption_body sender b s1
         end.
Proof.
  unfold requestBatchDecryption, whenNotPaused. unfold_monad. split_cases.
Qed.

Lemma handleDecryptionCallback_eq sender r c p s :
  handleDecryptionCallback sender r c p s =
    let ctx := decryptionContexts_at s r in
    let batch := batches_at s (batchId ctx) in
    if processed ctx then Revert ReplayAttempt
    else if negb (keccak256_encode
                    [FHE_toBytes32 (_initIfNeeded (encryptedAggregate batch))]
                    this =? stateHash ctx)
    then Revert InvalidStateHash
    else if negb (FHE_checkSignatures r c p) then Revert SignatureCheckFailed
    else match abi_decode_uint256 c with
         | None => Revert DecodeFailed
         | Some total =>
             Ok (tt,
               set_log (log s ++ [DecryptionComplete r (batchId ctx) total])
                 (set_decryptionContexts
                    (<[r := mkContext (batchId ctx) (stateHash ctx) true
                             (requester ctx)]> (decryptionContexts s)) s))
         end.
Proof.
  unfold handleDecryptionCallback, _hashCiphertexts. unfold_monad. split_cases.
Qed.

Lemma setCooldownInterval_eq sender n s :
  setCooldownInterval sender n s =
    if negb (sender =? owner_ s) then Revert NotOwner
    else if negb (MIN_INTERVAL <=? n)
    then Revert (RequireFailed "Interval too small")
    else Ok (tt, set_log (log s ++ [CooldownUpdated (cooldownInterval s) n])
                   (set_cooldownInterval n s)).
Proof.
  unfold setCooldownInterval, onlyOwner, owner. unfold_monad. split_cases.
Qed.

Lemma setMaxBatchSize_eq sender n s :
  setMaxBatchSize sender n s =
    if negb (sender =? owner_ s) then Revert NotOwner
    else if negb (0 <? n) then Revert (RequireFailed "Invalid size")
    else Ok (tt, set_maxBatchSize n s).
Proof.
  unfold setMaxBatchSize, onlyOwner, owner. unfold_monad. split_cases.
Qed.

Lemma pause_eq sender s :
  pause sender s =
    if negb (sender =? owner_ s) then Revert NotOwner
    else if paused s then Revert Paused
    else Ok (tt, set_log (log s ++ [EvPaused sender]) (set_paused true s)).
Proof.
  unfold pause, onlyOwner, owner, whenNotPaused. unfold_monad. split_cases.
Qed.

Lemma unpause_eq sender s :
  unpause sender s =
    if negb (sender =? owner_ s) then Revert NotOwner
    else if negb (paused s) then Revert (RequireFailed "Not paused")
    else Ok (tt, set_log (log s ++ [Unpaused sender]) (set_paused false s)).
Proof.
  unfold unpause, onlyOwner, owner. unfold_monad. split_cases.
Qed.

Lemma addProvider_eq sender a s :
  addProvider sender a s =
    if negb (sender =? owner_ s) then Revert NotOwner
    else Ok (tt, set_log (log s ++ [ProviderAdded a])
                   (set_isProvider (<[a := true]> (isProvider s)) s)).
Proof.
  unfold addProvider, onlyOwner, owner. unfold_monad. split_cases.
Qed.

Lemma removeProvider_eq sender a s :
  removeProvider sender a s =
    if negb (sender =? owner_ s) then Revert NotOwner
    else Ok (tt, set_log (log s ++ [ProviderRemoved a])
                   (set_isProvider (<[a := false]> (isProvider s)) s)).
Proof.
  unfold removeProvider, onlyOwner, owner. unfold_monad. split_cases.
Qed.

End ClosedForms.

#[global] Hint Rewrite @initialize_eq @setCooldownInterval_eq
  @setMaxBatchSize_eq @pause_eq @unpause_eq @addProvider_eq
  @removeProvider_eq @openBatch_eq @closeBatch_eq @submitEncryptedMod_eq
  @submitEncryptedMod_body_eq @requestBatchDecryption_eq
  @requestBatchDecryption_body_eq @handleDecryptionCallback_eq
  @rateLimited_submit_eq @rateLimited_request_eq : closed_forms.

(** Runs the call [c] of one transaction and splits on every check. *)
Ltac run_call c :=
  unfold apply_tx, run; simpl;
  destruct c; simpl; autorewrite with closed_forms; cbv zeta;
  split_cases; autorewrite with closed_forms in *; cbv zeta in *;
  split_cases; unfold in_uint256 in *; boolean_facts.

(** *** The invariant holds in every reachable world *)

Section Reachability.
Context `{FHE : FHECapability}.

Lemma rd_empty {V} (z : V) k : rd z ∅ k = z.
Proof. unfold rd. by rewrite lookup_empty. Qed.

Lemma inv_step w t : Inv w → admissible w t → Inv (apply_tx w t).
Proof.
  destruct w as [s tm], t as [sender now c].
  intros [Htime Hcur Hpre Hdom Hagg Hlen Hsub Hreq Hmax] (Hs & Ht & Hwf).
  simpl in *. unfold apply_tx, run; simpl.
  assert (Hfresh : initialized_ s = false →
            sender ≠ owner_ s ∧ isProvider_at s sender = false ∧
            ∀ b, batches_at s b = Batch_unset).
  { intros Hi. destruct (Hpre Hi) as (Ho & _ & Hb & Hp).
    unfold isProvider_at, batches_at. rewrite Ho, Hb, Hp.
    split; [lia|]. split; [apply rd_empty|]. intros; apply rd_empty. }
  destruct c; simpl; autorewrite with closed_forms; cbv zeta.
  all: split_cases; autorewrite with closed_forms in *; cbv zeta in *;
       split_cases.
  all: unfold in_uint256 in *; boolean_facts.
  all: constructor; simpl.
  all: try lia.
  all: try done.
  all: try (intros Hi; destruct (Hfresh Hi) as (Hf1 & Hf2 & Hf3);
            try rewrite Hf3 in *; simpl in *; congruence).
  all: try (intros; map_facts; eauto; try lia;
            match goal with
            | H : _ !! _ = Some _ |- _ =>
                first [ apply Hdom in H | apply Hsub in H | apply Hreq in H ];
                lia
            end).
  all: intros b ba Hb; unfold batches_at, rd in *; simpl in *;
       map_facts; eauto; try lia.
  all: try (apply Hdom in Hb; lia).
  all: clear Hfresh;
       match goal with
       | H : context [default Batch_unset (batches ?s0 !! ?k)] |- _ =>
           destruct (batches s0 !! k) as [ba0|] eqn:Hk; simpl in *; try done
       end.
  all: try (apply Hdom in Hk; lia).
  all: try (by apply Hagg in Hk).
  all: try (apply Hlen in Hk; rewrite ?length_app; simpl; lia).
Qed.

Lemma inv_genesis : Inv genesis.
Proof.
  constructor; simpl; try done; try (intros ? ? H; by rewrite lookup_empty in H).
Qed.

Lemma reaches_under_inv allowed w0 w :
  Inv w0 → reaches_under allowed w0 w → Inv w.
Proof. induction 2; [done | by apply inv_step]. Qed.

Lemma reaches_under_weaken allowed w0 w :
  reaches_under allowed w0 w → reaches w0 w.
Proof. induction 1; [constructor | by constructor]. Qed.

Lemma reachable_inv w : reachable w → Inv w.
Proof. apply reaches_under_inv, inv_genesis. Qed.

Lemma reaches_trans w0 w1 w2 : reaches w0 w1 → reaches w1 w2 → reaches w0 w2.
Proof. intros H1 H2. induction H2; [done | by constructor]. Qed.

Lemma admissibleb_true w t : admissibleb w t = true → admissible w t.
Proof.
  unfold admissibleb, admissible. intros H. boolean_facts. repeat split; [|lia|done].
  intros E. rewrite E in *. done.
Qed.

Lemma play_reaches w ts : playable w ts = true → reaches w (play w ts).
Proof.
  assert (G : ∀ w0 ts w, reaches w0 w → playable w ts = true →
              reaches w0 (play w ts)).
  { clear. intros w0 ts. induction ts as [|t ts IH]; intros w Hw Hp; simpl in *; [done|].
    apply andb_true_iff in Hp as [Ha Hp]. apply IH; [|done].
    constructor; [done | by apply admissibleb_true | done]. }
  intros. apply G; [constructor | done].
Qed.

Lemma play_reaches_under allowed w0 w ts :
  reaches_under allowed w0 w → steps_allowed allowed w ts →
  reaches_under allowed w0 (play w ts).
Proof.
  revert w. induction ts as [|t ts IH]; intros w Hw Hts; simpl in *; [done|].
  destruct Hts as (Ha & Hal & Hts). apply IH; [|done]. by constructor.
Qed.

End Reachability.

(** *** How one transaction changes the batches *)

Section BatchFrame.
Context `{FHE : FHECapability}.

Lemma not_initialized_facts w sender :
  Inv w → sender ≠ 0 → initialized_ (w_state w) = false →
  sender ≠ owner_ (w_state w) ∧ isProvider_at (w_state w) sender = false ∧
  ∀ b, batches (w_state w) !! b = None.
Proof.
  intros HI Hs Hi. destruct (inv_preinit _ HI Hi) as (Ho & _ & Hb & Hp).
  unfold isProvider_at, rd. rewrite Ho, Hb, Hp.
  split; [lia|]. split; [by rewrite lookup_empty|]. intros; apply lookup_empty.
Qed.

(** A batch that has been written stays written; its aggregate handle is
    kept, a closed batch stays closed and its count does not shrink. *)
Lemma batch_step w t b ba :
  Inv w → admissible w t →
  batches (w_state w) !! b = Some ba →
  ∃ ba', batches (w_state (apply_tx w t)) !! b = Some ba' ∧
         encryptedAggregate ba' = encryptedAggregate ba ∧
         (isOpen ba = false → isOpen ba' = false).
Proof.
  intros HI (Hs & Ht & Hwf) Hb.
  pose proof (not_initialized_facts w (tx_sender t) HI Hs) as Hfresh.
  pose proof (inv_dom _ HI _ _ Hb) as Hdom.
  destruct w as [s tm], t as [sender now c]; simpl in *.
  run_call c.
  all: try (eexists; split; [eassumption | done]).
  all: unfold batches_at, rd in *; simpl in *.
  all: match goal with
       | |- context [<[?k := _]> _ !! ?b0] =>
           destruct (decide (k = b0)) as [Heq|Hne];
           [rewrite Heq, lookup_insert_eq | rewrite lookup_insert_ne by done]
       end.
  all: try (eexists; split; [eassumption | done]).
  all: try rewrite Heq in *; try rewrite Hb in *; simpl in *.
  all: try (exfalso; lia).
  all: try (eexists; split; [reflexivity|]; simpl; split; by auto).
  all: destruct (Hfresh eq_refl) as (_ & _ & Hnone); by rewrite Hnone in Hb.
Qed.



Lemma batch_steps w w' b ba :
  Inv w → reaches w w' →
  batches (w_state w) !! b = Some ba →
  ∃ ba', batches (w_state w') !! b = Some ba' ∧
         encryptedAggregate ba' = encryptedAggregate ba ∧
         (isOpen ba = false → isOpen ba' = false).
Proof.
  intros HI Hr Hb. induction Hr as [|w1 t Hr IH Ha _].
  - eauto.
  - destruct IH as (ba1 & Hb1 & Hagg1 & Hop1).
    destruct (batch_step w1 t b ba1) as (ba2 & Hb2 & Hagg2 & Hop2);
      [by eapply reaches_under_inv | done | done |].
    exists ba2. split; [done|]. split; [congruence | auto].
Qed.

End BatchFrame.

(** * The claims *)

Section Claims.
Context `{FHE : FHECapability}.

Lemma submit_reverts_when_current_closed s sender now m e :
  isOpen (batches_at s (currentBatchId s)) = false →
  succeeds (submitEncryptedMod sender now m e) s = false.
Proof.
  intros Hclosed. unfold succeeds.
  autorewrite with closed_forms; cbv zeta.
  split_cases; autorewrite with closed_forms in *; cbv zeta in *.
  unfold batches_at in *; simpl in *.
  fold (batches_at s (currentBatchId s)) in *. rewrite Hclosed in *.
  split_cases.
Qed.

Lemma submit_guards_pass s sender now m e :
  isProvider_at s sender = true → paused s = false →
  cooldown_over s (lastSubmissionAt_at s sender) now →
  submitEncryptedMod sender now m e s =
  submitEncryptedMod_body sender m e
    (set_lastSubmissionAt (<[sender := now]> (lastSubmissionAt s)) s).
Proof.
  intros Hp Hpa [Hc1 Hc2].
  rewrite submitEncryptedMod_eq, Hp, Hpa, rateLimited_submit_eq. simpl.
  destruct (now <? _) eqn:E1; [apply Z.ltb_lt in E1; lia|].
  destruct (now - _ <? _) eqn:E2; [apply Z.ltb_lt in E2; lia|]. done.
Qed.


(** C8 (amended). [closeBatch(b)] called by the owner succeeds exactly when
    batch [b] is open, and any other caller is turned away with [NotOwner];
    once it has succeeded in a reachable world, batch [b] is closed in
    every later world, and while [b] is the current batch every
    [submitEncryptedMod] reverts: with [BatchNotOpen] as soon as the
    provider, pause, cooldown and uniqueness checks pass. *)
Theorem C8_closeBatch_is_terminal
    (w : World) (t : Tx) (b : uint256)
    (Hw : reachable w) (Ht : admissible w t)
    (Hcall : tx_call t = CCloseBatch b) :
  let s := w_state w in
  (tx_sender t = owner_ s →
     (succeeds (closeBatch (tx_sender t) b) s = true ↔
      isOpen (batches_at s b) = true)) ∧
  (tx_sender t ≠ owner_ s →
     closeBatch (tx_sender t) b s = Revert NotOwner) ∧
  (succeeds (closeBatch (tx_sender t) b) s = true →
   ∀ w', reaches (apply_tx w t) w' →
     let s' := w_state w' in
     isOpen (batches_at s' b) = false ∧
     (currentBatchId s' = b →
      ∀ sender now modId score,
        succeeds (submitEncryptedMod sender now modId score) s' = false ∧
        (isProvider_at s' sender = true → paused s' = false →
         cooldown_over s' (lastSubmissionAt_at s' sender) now →
         modSubmitters_at s' modId = 0 →
         submitEncryptedMod sender now modId score s' = Revert BatchNotOpen))).
Proof.
  pose proof (reachable_inv w Hw) as HI.
  pose proof (inv_step w t HI Ht) as HI'.
  cbv zeta. split; [|split].
  - intros Ho. unfold succeeds. rewrite closeBatch_eq, Ho, Z.eqb_refl. simpl.
    destruct (isOpen (batches_at (w_state w) b)); simpl; split; done.
  - intros Ho. rewrite closeBatch_eq.
    destruct (tx_sender t =? owner_ (w_state w)) eqn:E; [|done].
    apply Z.eqb_eq in E. done.
  - intros Hok w' Hr.
    assert (Hclosed : ∃ ba, batches (w_state (apply_tx w t)) !! b = Some ba ∧
                            isOpen ba = false).
    { unfold apply_tx, run, succeeds in *. simpl. rewrite Hcall. simpl.
      rewrite closeBatch_eq in *.
      destruct (negb (tx_sender t =? owner_ (w_state w))); [done|].
      destruct (negb (isOpen (batches_at (w_state w) b))); [done|].
      simpl. rewrite lookup_insert_eq. eauto. }
    destruct Hclosed as (ba & Hb & Hop).
    destruct (batch_steps _ w' b ba HI' Hr Hb) as (ba' & Hb' & _ & Hop').
    assert (Hat : isOpen (batches_at (w_state w') b) = false).
    { unfold batches_at, rd. rewrite Hb'. simpl. auto. }
    split; [done|]. intros Hcur sender now modId score.
    rewrite <- Hcur in Hat. split.
    + by apply submit_reverts_when_current_closed.
    + intros Hp Hpa Hc Hm. rewrite submit_guards_pass by done.
      rewrite submitEncryptedMod_body_eq. cbv zeta.
      unfold modSubmitters_at, batches_at in *. simpl.
      rewrite Hm, Hat. done.
Qed.

End Claims.

Section Claims2.
Context `{FHE : FHECapability}.

(** *** Finalized contexts *)

Lemma processed_step w t r :
  r < counterRequest (w_state w) →
  processed (decryptionContexts_at (w_state w) r) = true →
  r < counterRequest (w_state (apply_tx w t)) ∧
  processed (decryptionContexts_at (w_state (apply_tx w t)) r) = true.
Proof.
  destruct w as [s tm], t as [sender now c]; simpl. intros Hlt Hp.
  run_call c.
  all: unfold decryptionContexts_at, rd in *; simpl in *.
  all: try (split; [lia|]).
  all: match goal with
       | |- context [<[?k := _]> _ !! ?r0] =>
           destruct (decide (k = r0)) as [Heq|Hne];
           [rewrite Heq, lookup_insert_eq | rewrite lookup_insert_ne by done]
       end; try done.
  lia.
Qed.

(** C4. A request id that has been issued and whose context is processed
    stays processed in every later world, whatever is called in between,
    and every [handleDecryptionCallback] for it reverts with
    [ReplayAttempt], for any caller, payload and proof: the flag goes from
    false to true at most once and is never reset. *)
Theorem C4_processed_context_rejects_replay
    (w w' : World) (r : uint256)
    (Hreach : reaches w w')
    (Hissued : r < counterRequest (w_state w))
    (Hprocessed : processed (decryptionContexts_at (w_state w) r) = true) :
  processed (decryptionContexts_at (w_state w') r) = true ∧
  ∀ sender cleartexts proof,
    handleDecryptionCallback sender r cleartexts proof (w_state w')
    = Revert ReplayAttempt.
Proof.
  assert (H : r < counterRequest (w_state w') ∧
              processed (decryptionContexts_at (w_state w') r) = true).
  { induction Hreach as [|w1 t _ IH _ _]; [done|].
    destruct IH. by apply processed_step. }
  destruct H as [_ H]. split; [done|]. intros.
  rewrite handleDecryptionCallback_eq. cbv zeta. by rewrite H.
Qed.

(** *** Recorded mod identifiers *)

Lemma recorded_step w t m :
  modSubmitters_at (w_state w) m ≠ 0 →
  modSubmitters (w_state (apply_tx w t)) !! m = modSubmitters (w_state w) !! m ∧
  modBatchIds (w_state (apply_tx w t)) !! m = modBatchIds (w_state w) !! m ∧
  encryptedScores (w_state (apply_tx w t)) !! m
    = encryptedScores (w_state w) !! m.
Proof.
  destruct w as [s tm], t as [sender now c]; simpl. intros Hrec.
  run_call c.
  unfold modSubmitters_at in *; simpl in *.
  destruct (decide (modId = m)) as [->|Hne]; [done|].
  by rewrite !lookup_insert_ne.
Qed.

Lemma recorded_steps w w' m :
  reaches w w' → modSubmitters_at (w_state w) m ≠ 0 →
  modSubmitters (w_state w') !! m = modSubmitters (w_state w) !! m ∧
  modBatchIds (w_state w') !! m = modBatchIds (w_state w) !! m ∧
  encryptedScores (w_state w') !! m = encryptedScores (w_state w) !! m.
Proof.
  intros Hr Hrec. induction Hr as [|w1 t _ IH _ _]; [done|].
  destruct IH as (E1 & E2 & E3).
  destruct (recorded_step w1 t m) as (F1 & F2 & F3).
  { unfold modSubmitters_at, rd in *. by rewrite E1. }
  repeat split; congruence.
Qed.

Lemma submit_reverts_when_recorded s sender now m e :
  modSubmitters_at s m ≠ 0 →
  succeeds (submitEncryptedMod sender now m e) s = false.
Proof.
  intros Hrec. unfold succeeds.
  autorewrite with closed_forms; cbv zeta.
  split_cases; autorewrite with closed_forms in *; cbv zeta in *.
  unfold modSubmitters_at in *; simpl in *.
  destruct (rd 0 (modSubmitters s) m =? 0) eqn:E; [|done].
  by apply Z.eqb_eq in E.
Qed.

(** C6 (amended). Once a mod identifier [m] is recorded (its submitter is
    a real account, as after any successful [submitEncryptedMod]), the
    entries [modSubmitters[m]], [modBatchIds[m]] and [encryptedScores[m]]
    are the same in every later world, and every later
    [submitEncryptedMod(m, s)] reverts, whoever calls, whichever batch is
    current and whatever handle is given: with [StaleWrite] as soon as the
    provider, pause and cooldown guards pass. *)
Theorem C6_recorded_mod_is_never_rewritten
    (w w' : World) (m : bytes32)
    (Hreach : reaches w w')
    (Hrecorded : modSubmitters_at (w_state w) m ≠ 0) :
  let s := w_state w in
  let s' := w_state w' in
  (∀ sender now e s0 s1,
     submitEncryptedMod sender now m e s0 = Ok (tt, s1) →
     modSubmitters_at s1 m = sender) ∧
  modSubmitters s' !! m = modSubmitters s !! m ∧
  modBatchIds s' !! m = modBatchIds s !! m ∧
  encryptedScores s' !! m = encryptedScores s !! m ∧
  ∀ sender now e,
    succeeds (submitEncryptedMod sender now m e) s' = false ∧
    (isProvider_at s' sender = true → paused s' = false →
     cooldown_over s' (lastSubmissionAt_at s' sender) now →
     submitEncryptedMod sender now m e s' = Revert StaleWrite).
Proof.
  cbv zeta. destruct (recorded_steps w w' m Hreach Hrecorded) as (E1 & E2 & E3).
  assert (Hrec' : modSubmitters_at (w_state w') m ≠ 0).
  { unfold modSubmitters_at, rd in *. by rewrite E1. }
  split; [|repeat split; try done].
  - intros sender now e s0 s1.
    autorewrite with closed_forms; cbv zeta.
    split_cases; autorewrite with closed_forms in *; cbv zeta in *.
    split_cases. intros [= <-]. unfold modSubmitters_at, rd. simpl.
    by rewrite lookup_insert_eq.
  - by apply submit_reverts_when_recorded.
  - intros Hp Hpa Hc. rewrite submit_guards_pass by done.
    rewrite submitEncryptedMod_body_eq. cbv zeta.
    unfold modSubmitters_at in *. simpl.
    destruct (rd 0 (modSubmitters (w_state w')) m =? 0) eqn:E; [|done].
    by apply Z.eqb_eq in E.
Qed.

End Claims2.

(** When the state hash is never the zero word, a context exists only for
    an issued request id: the hypothesis of C4 holds for every processed
    context of a reachable world. *)

Section IssuedIds.
Context `{FHE : FHECapability}.
Hypothesis keccak_never_zero : ∀ cts a, keccak256_encode cts a ≠ 0.

Lemma contexts_issued_step w t :
  (∀ r ctx, decryptionContexts (w_state w) !! r = Some ctx →
     r < counterRequest (w_state w)) →
  ∀ r ctx, decryptionContexts (w_state (apply_tx w t)) !! r = Some ctx →
    r < counterRequest (w_state (apply_tx w t)).
Proof.
  destruct w as [s tm], t as [sender now c]; simpl. intros Hdom.
  run_call c.
  all: try (intros r ctx Hr; by eapply Hdom).
  - intros r ctx Hr. simpl in Hr.
    apply lookup_insert_Some in Hr as [[<- _]|[_ Hr]]; [lia|].
    apply Hdom in Hr. lia.
  - intros r ctx Hr. simpl in Hr.
    apply lookup_insert_Some in Hr as [[<- _]|[_ Hr]]; [|by eapply Hdom].
    unfold decryptionContexts_at, rd in *.
    destruct (decryptionContexts s !! requestId) as [ctx0|] eqn:E;
      [by eapply Hdom|].
    simpl in *. by edestruct keccak_never_zero.
Qed.

Lemma processed_ids_were_issued w r :
  reachable w →
  processed (decryptionContexts_at (w_state w) r) = true →
  r < counterRequest (w_state w).
Proof.
  intros Hw Hp.
  assert (Hdom : ∀ r ctx, decryptionContexts (w_state w) !! r = Some ctx →
                   r < counterRequest (w_state w)).
  { clear Hp. induction Hw as [|w t _ IH _ _].
    - intros r0 ctx Hr. simpl in Hr. by rewrite lookup_empty in Hr.
    - by apply contexts_issued_step. }
  unfold decryptionContexts_at, rd in Hp.
  destruct (decryptionContexts (w_state w) !! r) as [ctx|] eqn:E; [|done].
  by eapply Hdom.
Qed.

End IssuedIds.

Section Claims3.
Context `{FHE : FHECapability}.

(** *** Capacity *)

Lemma within_capacity_lookup s :
  0 ≤ maxBatchSize s →
  (within_capacity s ↔
   ∀ b ba, batches s !! b = Some ba → modCount ba ≤ maxBatchSize s).
Proof.
  intros Hmax. unfold within_capacity, batches_at, rd. split.
  - intros H b ba Hb. specialize (H b). by rewrite Hb in H.
  - intros H b. destruct (batches s !! b) as [ba|] eqn:Hb; simpl; eauto.
Qed.

Lemma counts_checked s n :
  0 ≤ n →
  bool_decide (map_Forall (fun _ ba => modCount ba ≤ n) (batches s)) = true →
  ∀ b, modCount (batches_at s b) ≤ n.
Proof.
  intros Hn Hall b. apply bool_decide_eq_true in Hall.
  unfold batches_at, rd.
  destruct (batches s !! b) as [ba|] eqn:Hb; simpl; [|done].
  exact (Hall b ba Hb).
Qed.

Lemma capacity_step w t :
  Inv w → admissible w t → ¬ lowers_below_a_count w t →
  within_capacity (w_state w) → within_capacity (w_state (apply_tx w t)).
Proof.
  intros HI Ha Hlow Hcap.
  pose proof (inv_step w t HI Ha) as HI'.
  pose proof (inv_max _ HI) as Hmax. pose proof (inv_max _ HI') as Hmax'.
  pose proof (proj1 (within_capacity_lookup (w_state w) ltac:(lia)) Hcap)
    as Hcap'.
  clear Hcap. rename Hcap' into Hcap.
  apply (proj2 (within_capacity_lookup (w_state (apply_tx w t)) ltac:(lia))).
  clear HI HI'.
  destruct Ha as (Hs & Ht & Hwf).
  destruct w as [s tm], t as [sender now c]; simpl in *.
  unfold lowers_below_a_count in Hlow; simpl in Hlow.
  run_call c.
  all: intros b ba Hb; unfold batches_at, rd in *; simpl in *;
       map_facts; try lia; try (apply Hcap in Hb; lia).
  all: try match goal with
       | Hk : batches _ !! ?k = Some ?x |- modCount ?x ≤ ?n =>
           destruct (decide (n < modCount x)); [|lia];
           exfalso; apply Hlow; split; [done|];
           exists k; rewrite Hk; done
       end.
  all: try match goal with
       | H : context [default Batch_unset (batches ?s0 !! ?k)] |- _ =>
           destruct (batches s0 !! k) as [ba0|] eqn:Hk; simpl in *; try done
       end.
  all: try (apply Hcap in Hk; lia).
  all: eauto.
Qed.

(** C7 (amended). In every world reached without the owner setting
    [maxBatchSize] below the count of a batch, every batch's [modCount] is
    at most [maxBatchSize]; in every reachable world, any other
    transaction keeps that bound. In every reachable world, a
    [submitEncryptedMod] that passes the provider, pause, cooldown,
    uniqueness and batch-open checks reverts with [BatchFull] when the
    current batch already holds [maxBatchSize] submissions or more, and
    succeeds, raising the count by one, when the count is strictly below
    the maximum. *)
Theorem C7_capacity_is_enforced_at_submission
    (w : World) (Hw : reachable w) :
  let s := w_state w in
  let count := modCount (batches_at s (currentBatchId s)) in
  (reaches_under (fun w t => ¬ lowers_below_a_count w t) genesis w →
     within_capacity s) ∧
  (∀ t, admissible w t → ¬ lowers_below_a_count w t →
     within_capacity s → within_capacity (w_state (apply_tx w t))) ∧
  (∀ sender now modId score,
     isProvider_at s sender = true →
     paused s = false →
     cooldown_over s (lastSubmissionAt_at s sender) now →
     modSubmitters_at s modId = 0 →
     isOpen (batches_at s (currentBatchId s)) = true →
     (maxBatchSize s ≤ count →
        submitEncryptedMod sender now modId score s = Revert BatchFull) ∧
     (count < maxBatchSize s →
        ∃ s', submitEncryptedMod sender now modId score s = Ok (tt, s') ∧
              modCount (batches_at s' (currentBatchId s')) = count + 1 ∧
              count + 1 ≤ maxBatchSize s')).
Proof.
  pose proof (reachable_inv w Hw) as HI.
  pose proof (inv_max _ HI) as Hmax.
  cbv zeta. split; [|split].
  - clear - FHE. intros Hr. induction Hr as [|w1 t Hr IH Ha Hlow].
    + intros b. unfold batches_at, rd. simpl. by rewrite lookup_empty.
    + apply capacity_step; try done.
      eapply reaches_under_inv; [apply inv_genesis | done].
  - intros t Ha Hlow Hcap. by apply capacity_step.
  - intros sender now modId score Hprovider Hpaused Hcool Hfresh Hopen.
    split.
    + intros Hfull. rewrite submit_guards_pass by done.
      rewrite submitEncryptedMod_body_eq. cbv zeta.
      unfold modSubmitters_at, batches_at in *. simpl.
      rewrite Hfresh, Hopen. simpl.
      destruct (_ <=? _) eqn:E; [done|]. apply Z.leb_gt in E. lia.
    + intros Hbelow. rewrite submit_guards_pass by done.
      rewrite submitEncryptedMod_body_eq. cbv zeta.
      unfold modSubmitters_at, batches_at in *. simpl.
      rewrite Hfresh, Hopen. simpl.
      destruct (_ <=? _) eqn:E; [apply Z.leb_le in E; lia|].
      destruct (MAX_UINT256 <? _) eqn:E2; [apply Z.ltb_lt in E2; lia|].
      eexists. split; [reflexivity|]. simpl. unfold rd in *.
      rewrite lookup_insert_eq. simpl. lia.
Qed.

(** *** Cooldown *)



Lemma rateLimited_request_past s a now :
  lastRequestAt_at s a ≤ now →
  rateLimited "request" a now s =
    if now - lastRequestAt_at s a <? cooldownInterval s
    then Revert RateLimited
    else Ok (tt, set_lastRequestAt (<[a := now]> (lastRequestAt s)) s).
Proof.
  intros H. rewrite rateLimited_request_eq.
  destruct (now <? lastRequestAt_at s a) eqn:E; [|done].
  apply Z.ltb_lt in E. lia.
Qed.


End Claims3.

Section Claims4.
Context `{FHE : FHECapability}.

Lemma forallb_initialized_false s ids :
  (∃ m, m ∈ ids ∧ FHE_isInitialized (encryptedScores_at s m) = false) →
  forallb (fun m => FHE_isInitialized (encryptedScores_at s m)) ids = false.
Proof.
  intros (m & Hin & Hm). apply not_true_is_false. intros Hall.
  rewrite forallb_forall in Hall. apply list_elem_of_In in Hin.
  specialize (Hall m Hin). congruence.
Qed.

Lemma forallb_initialized_true s ids :
  (∀ m, m ∈ ids → FHE_isInitialized (encryptedScores_at s m) = true) →
  forallb (fun m => FHE_isInitialized (encryptedScores_at s m)) ids = true.
Proof.
  intros H. apply forallb_forall. intros m Hin. apply H.
  by apply list_elem_of_In.
Qed.

(** C10. [requestBatchDecryption(b)] by a non-paused caller who passes the
    cooldown check reverts with [InvalidBatch] when batch [b] has no
    submission. Otherwise its loop computes the aggregate the way the
    specification words it: the fold of the encrypted add over the scores
    of [batch.modIds] in order, from the stored aggregate or from the
    encrypted zero when that is not initialized. The whole call reverts
    when one of those scores is not initialized, and otherwise stores a
    context committed to that aggregate under the next request id. *)
Theorem C10_requestBatchDecryption_folds_all_scores
    (s : State) (sender : address) (now b : uint256)
    (Hpaused : paused s = false)
    (Hcool : cooldown_over s (lastRequestAt_at s sender) now) :
  let batch := batches_at s b in
  let stamped := set_lastRequestAt (<[sender := now]> (lastRequestAt s)) s in
  (modCount batch = 0 →
     requestBatchDecryption sender now b s = Revert InvalidBatch) ∧
  (spec_recomputeAggregate s b =
     fold_left FHE_add (map (encryptedScores_at s) (modIds batch))
       (_initIfNeeded (encryptedAggregate batch))) ∧
  (FHE_isInitialized (encryptedAggregate batch) = false →
     spec_recomputeAggregate s b =
     fold_left FHE_add (map (encryptedScores_at s) (modIds batch))
       (FHE_asEuint32 0)) ∧
  (modCount batch ≠ 0 →
   (∃ m, m ∈ modIds batch ∧
         FHE_isInitialized (encryptedScores_at s m) = false) →
     aggregate_loop (modIds batch) (_initIfNeeded (encryptedAggregate batch))
       stamped = Revert (RequireFailed "score not initialized") ∧
     requestBatchDecryption sender now b s
       = Revert (RequireFailed "score not initialized")) ∧
  (modCount batch ≠ 0 →
   (∀ m, m ∈ modIds batch →
         FHE_isInitialized (encryptedScores_at s m) = true) →
     aggregate_loop (modIds batch) (_initIfNeeded (encryptedAggregate batch))
       stamped = Ok (spec_recomputeAggregate s b, stamped) ∧
     (counterRequest s + 1 ≤ MAX_UINT256 →
      ∃ s', requestBatchDecryption sender now b s = Ok (tt, s') ∧
            decryptionContexts_at s' (counterRequest s) =
              mkContext b
                (keccak256_encode
                   [FHE_toBytes32 (spec_recomputeAggregate s b)] this)
                false sender ∧
            log s' = log s ++
              [DecryptionRequested (counterRequest s) b
                 (keccak256_encode
                    [FHE_toBytes32 (spec_recomputeAggregate s b)] this)])).
Proof.
  destruct Hcool as [Hc1 Hc2]. cbv zeta.
  assert (Hguard : requestBatchDecryption sender now b s =
            requestBatchDecryption_body sender b
              (set_lastRequestAt (<[sender := now]> (lastRequestAt s)) s)).
  { rewrite requestBatchDecryption_eq, Hpaused, rateLimited_request_past by done.
    destruct (now - lastRequestAt_at s sender <? cooldownInterval s) eqn:E;
      [apply Z.ltb_lt in E; lia | done]. }
  assert (Hspec : spec_recomputeAggregate s b =
            fold_left FHE_add
              (map (encryptedScores_at s) (modIds (batches_at s b)))
              (_initIfNeeded (encryptedAggregate (batches_at s b)))).
  { unfold spec_recomputeAggregate, _initIfNeeded.
    by destruct (FHE_isInitialized _). }
  rewrite Hguard, requestBatchDecryption_body_eq. cbv zeta.
  rewrite !aggregate_loop_eq.
  change (batches_at (set_lastRequestAt _ s) b) with (batches_at s b).
  change (fun m => FHE_isInitialized
            (encryptedScores_at (set_lastRequestAt _ s) m))
    with (fun m => FHE_isInitialized (encryptedScores_at s m)).
  split; [|split; [|split; [|split]]].
  - intros H0. by rewrite H0.
  - done.
  - intros Hun. unfold spec_recomputeAggregate. by rewrite Hun.
  - intros Hne Hex. rewrite (forallb_initialized_false s _ Hex).
    split; [done|]. destruct (_ =? 0) eqn:E; [|done].
    apply Z.eqb_eq in E. done.
  - intros Hne Hall. rewrite (forallb_initialized_true s _ Hall).
    split; [by rewrite Hspec|]. intros Hctr.
    destruct (_ =? 0) eqn:E; [apply Z.eqb_eq in E; done|].
    destruct (MAX_UINT256 <? _) eqn:E2; [apply Z.ltb_lt in E2; simpl in E2; lia|].
    eexists. split; [reflexivity|]. unfold decryptionContexts_at, rd. simpl.
    rewrite lookup_insert_eq. done.
Qed.

(** [handleDecryptionCallback] is public and never reads [msg.sender]:
    on any storage its outcome is the same for every caller. When
    [FHE.checkSignatures] rejects the request id, payload and proof, the
    call fails and the storage is left as it was. *)
Lemma callback_outcome_ignores_the_caller
    (s : State) (requestId : uint256) (cleartexts proof : bytes) :
  (∀ caller1 caller2,
     handleDecryptionCallback caller1 requestId cleartexts proof s
     = handleDecryptionCallback caller2 requestId cleartexts proof s) ∧
  (FHE_checkSignatures requestId cleartexts proof = false →
   ∀ caller,
     succeeds (handleDecryptionCallback caller requestId cleartexts proof) s
       = false ∧
     run (handleDecryptionCallback caller requestId cleartexts proof) s = s).
Proof.
  split.
  - intros. by rewrite !handleDecryptionCallback_eq.
  - intros Hbad caller. unfold succeeds, run.
    rewrite handleDecryptionCallback_eq. cbv zeta. rewrite Hbad. simpl.
    by repeat case_match.
Qed.

End Claims4.

(** * No decryption ever completes

    Under collision-free handles and hashing, the commitment stored by
    [requestBatchDecryption] is the hash of a handle returned by
    [FHE.add], while [handleDecryptionCallback] hashes the stored
    aggregate, the encrypted zero: the two never agree. *)

Section NeverCompletes.
Context `{FHE : FHECapability} `{!IdealCapability}.









End NeverCompletes.

(** The symbolic capabilities are collision free. *)
Lemma Sym_ideal : @IdealCapability Sym.capability.
Proof.
  assert (Hz : ∀ x, 0 < Sym.zcode x).
  { intros x. unfold Sym.zcode. destruct (0 <=? x) eqn:E; boolean_facts; lia. }
  assert (Hh : ∀ cts a, 0 < Sym.hash cts a).
  { intros cts a. induction cts as [|x cts IH]; simpl; [apply Hz|].
    pose proof (Hz x). lia. }
  constructor; simpl.
  - done.
  - intros x y. lia.
  - intros x y a. unfold Sym.zcode.
    destruct (0 <=? x) eqn:Ex, (0 <=? y) eqn:Ey; boolean_facts; lia.
  - intros cts a. pose proof (Hh cts a). lia.
Qed.

(** * The claims on concrete scenarios *)

Section Concrete.

Import Sym Scenario.

Ltac replay := apply play_reaches; vm_compute; reflexivity.
Ltac admit_tx := apply admissibleb_true; vm_compute; reflexivity.

(** C1. After one submission and a decryption request for batch 1, nothing
    else touches the batch: the hash of the aggregate folded over the
    batch's submissions is the one stored in the context, yet
    [handleDecryptionCallback] with a valid proof reverts with
    [InvalidStateHash]. It hashes the stored [encryptedAggregate] (the
    encrypted zero) and does not fold the submissions. *)
Theorem C1_callback_does_not_recompute_the_aggregate :
  let w := play genesis one_submission in
  let s := w_state w in
  let ctx := decryptionContexts_at s 0 in
  reachable w ∧
  batchId ctx = 1 ∧ processed ctx = false ∧
  modIds (batches_at s 1) = [1] ∧
  spec_stateHash s 1 = stateHash ctx ∧
  FHE_checkSignatures 0 (word 7) (sign 0 (word 7)) = true ∧
  handleDecryptionCallback bob 0 (word 7) (sign 0 (word 7)) s
    = Revert InvalidStateHash ∧
  keccak256_encode
    [FHE_toBytes32 (_initIfNeeded (encryptedAggregate (batches_at s 1)))] this
    ≠ spec_stateHash s 1.
Proof.
  cbv zeta. split; [replay|]. do 6 (split; [vm_compute; reflexivity|]).
  vm_compute. discriminate.
Qed.

(** C2. The scenario of the specification: "m1" with 10 and "m2" with 5
    in batch 1, a decryption request, no further submission, then the
    callback with cleartext 15 and a valid proof. The requested aggregate
    stands for 15 and the payload decodes to 15, but the callback reverts
    with [InvalidStateHash]: the context is not marked processed and no
    [DecryptionComplete] event is emitted. *)
Theorem C2_round_trip_callback_reverts :
  let w := play genesis two_submissions in
  let s := w_state w in
  let s' := run (handleDecryptionCallback bob 0 (word 15) (sign 0 (word 15))) s in
  reachable w ∧
  plain (spec_recomputeAggregate s 1) = 10 + 5 ∧
  stateHash (decryptionContexts_at s 0) = spec_stateHash s 1 ∧
  abi_decode_uint256 (word 15) = Some 15 ∧
  FHE_checkSignatures 0 (word 15) (sign 0 (word 15)) = true ∧
  handleDecryptionCallback bob 0 (word 15) (sign 0 (word 15)) s
    = Revert InvalidStateHash ∧
  processed (decryptionContexts_at s' 0) = false ∧
  log s' = log s.
Proof.
  cbv zeta. split; [replay|]. do 6 (split; [vm_compute; reflexivity|]).
  vm_compute; reflexivity.
Qed.



(** C6, counterexample. "m1" is recorded at time 100; ten seconds later
    the same provider submits it again: the call reverts with
    [RateLimited], not with [StaleWrite]. A caller who is no provider is
    turned away with [NotProvider]. *)
Lemma C6_counterexample :
  let w := play genesis one_recorded in
  let s := w_state w in
  reachable w ∧
  modSubmitters_at s 1 = alice ∧
  submitEncryptedMod alice 110 1 (Input 7 3) s = Revert RateLimited ∧
  submitEncryptedMod carol 200 1 (Input 7 3) s = Revert NotProvider ∧
  ¬ (∀ sender now e, submitEncryptedMod sender now 1 e s = Revert StaleWrite).
Proof.
  cbv zeta. split; [replay|]. do 3 (split; [vm_compute; reflexivity|]).
  intros H. specialize (H alice 110 (Input 7 3)). vm_compute in H.
  discriminate H.
Qed.

(** C6, witness: "m1" stays recorded when the owner opens batch 2. *)
Lemma C6_witness :
  let w := play genesis one_recorded in
  let w' := play w [mkTx alice 200 COpenBatch] in
  reaches w w' ∧ modSubmitters_at (w_state w) 1 ≠ 0 ∧
  modSubmitters (w_state w') !! 1 = modSubmitters (w_state w) !! 1 ∧
  ∀ sender now e,
    succeeds (submitEncryptedMod sender now 1 e) (w_state w') = false.
Proof.
  cbv zeta.
  assert (Hr : reaches (play genesis one_recorded)
                 (play (play genesis one_recorded) [mkTx alice 200 COpenBatch]))
    by replay.
  assert (Hm : modSubmitters_at (w_state (play genesis one_recorded)) 1 ≠ 0)
    by (vm_compute; discriminate).
  split; [exact Hr|]. split; [exact Hm|].
  destruct (C6_recorded_mod_is_never_rewritten _ _ 1 Hr Hm)
    as (_ & E1 & _ & _ & Hsub).
  split; [exact E1|]. intros sender now e. exact (proj1 (Hsub sender now e)).
Defined.

(** C7, counterexample. Two submissions land in batch 1, then the owner
    sets [maxBatchSize] to 1: the world is reachable and batch 1 holds
    more than [maxBatchSize] submissions. *)
Lemma C7_counterexample :
  let w := play genesis lowered_maximum in
  let s := w_state w in
  reachable w ∧
  modCount (batches_at s 1) = 2 ∧ maxBatchSize s = 1 ∧
  ¬ within_capacity s.
Proof.
  cbv zeta. split; [replay|]. do 2 (split; [vm_compute; reflexivity|]).
  intros H. specialize (H 1). vm_compute in H. by apply H.
Qed.

(** C7, witness: the owner lowers the maximum to 1 while batch 1 holds one
    submission. Every batch is within the maximum, and a second
    submission that passes the other checks reverts with [BatchFull]. *)
Lemma C7_witness :
  let w := play genesis lowered_to_the_count in
  let s := w_state w in
  reachable w ∧
  reaches_under (fun w t => ¬ lowers_below_a_count w t) genesis w ∧
  within_capacity s ∧
  isProvider_at s alice = true ∧ paused s = false ∧
  cooldown_over s (lastSubmissionAt_at s alice) 140 ∧
  modSubmitters_at s 2 = 0 ∧
  isOpen (batches_at s (currentBatchId s)) = true ∧
  maxBatchSize s ≤ modCount (batches_at s (currentBatchId s)) ∧
  submitEncryptedMod alice 140 2 (Input 5 2) s = Revert BatchFull.
Proof.
  cbv zeta.
  assert (Hw : reachable (play genesis lowered_to_the_count)) by replay.
  assert (Hr : reaches_under (fun w t => ¬ lowers_below_a_count w t) genesis
                 (play genesis lowered_to_the_count)).
  { apply play_reaches_under; [apply reaches_refl|].
    split; [admit_tx|]. split; [intros Hl; exact Hl|].
    split; [admit_tx|]. split; [intros Hl; exact Hl|].
    split; [admit_tx|]. split; [|exact I].
    intros [_ [b Hb]]. revert Hb. apply Z.le_ngt.
    apply counts_checked; [lia | vm_compute; reflexivity]. }
  set (s := w_state (play genesis lowered_to_the_count)).
  assert (H1 : isProvider_at s alice = true) by (vm_compute; reflexivity).
  assert (H2 : paused s = false) by (vm_compute; reflexivity).
  assert (H3 : cooldown_over s (lastSubmissionAt_at s alice) 140)
    by (split; vm_compute; discriminate).
  assert (H4 : modSubmitters_at s 2 = 0) by (vm_compute; reflexivity).
  assert (H5 : isOpen (batches_at s (currentBatchId s)) = true)
    by (vm_compute; reflexivity).
  assert (H6 : maxBatchSize s ≤ modCount (batches_at s (currentBatchId s)))
    by (vm_compute; discriminate).
  pose proof (C7_capacity_is_enforced_at_submission
                (play genesis lowered_to_the_count) Hw) as H.
  cbv zeta in H. destruct H as (Hcap & _ & Hsub).
  split; [exact Hw|]. split; [exact Hr|]. split; [exact (Hcap Hr)|].
  do 4 (split; [assumption|]). split; [exact H5|]. split; [exact H6|].
  exact (proj1 (Hsub alice 140 2 (Input 5 2) H1 H2 H3 H4 H5) H6).
Defined.

(** C8, counterexample. Batch 1 is open and carol, who is not the owner,
    calls [closeBatch(1)]: the call reverts with [NotOwner]. And with
    batch 1 closed and current, a submission by carol, who is no provider,
    reverts with [NotProvider], not with [BatchNotOpen]. *)
Lemma C8_counterexample :
  let s := w_state (play genesis initialized_only) in
  let s' := w_state (play genesis closed_current) in
  reachable (play genesis initialized_only) ∧
  isOpen (batches_at s 1) = true ∧
  closeBatch carol 1 s = Revert NotOwner ∧
  succeeds (closeBatch carol 1) s = false ∧
  reachable (play genesis closed_current) ∧
  currentBatchId s' = 1 ∧ isOpen (batches_at s' 1) = false ∧
  submitEncryptedMod carol 200 1 (Input 7 3) s' = Revert NotProvider.
Proof.
  cbv zeta. split; [replay|]. do 3 (split; [vm_compute; reflexivity|]).
  split; [replay|]. do 2 (split; [vm_compute; reflexivity|]).
  vm_compute; reflexivity.
Qed.

(** C8, witness: the owner closes batch 1. *)
Lemma C8_witness :
  let w := play genesis initialized_only in
  let t := mkTx alice 101 (CCloseBatch 1) in
  reachable w ∧ admissible w t ∧
  (tx_sender t = owner_ (w_state w) →
   (succeeds (closeBatch (tx_sender t) 1) (w_state w) = true ↔
    isOpen (batches_at (w_state w) 1) = true)).
Proof.
  cbv zeta.
  assert (Hw : reachable (play genesis initialized_only)) by replay.
  assert (Ht : admissible (play genesis initialized_only)
                 (mkTx alice 101 (CCloseBatch 1))) by admit_tx.
  split; [exact Hw|]. split; [exact Ht|].
  exact (proj1 (C8_closeBatch_is_terminal _ _ 1 Hw Ht eq_refl)).
Defined.


(** C10, witness: a request for batch 7, which has no submission. *)
Lemma C10_witness :
  let s := w_state (play genesis one_recorded) in
  paused s = false ∧ cooldown_over s (lastRequestAt_at s bob) 200 ∧
  (modCount (batches_at s 7) = 0 →
   requestBatchDecryption bob 200 7 s = Revert InvalidBatch).
Proof.
  cbv zeta. set (s := w_state (play genesis one_recorded)).
  assert (H1 : paused s = false) by (vm_compute; reflexivity).
  assert (H2 : cooldown_over s (lastRequestAt_at s bob) 200)
    by (split; vm_compute; discriminate).
  split; [exact H1|]. split; [exact H2|].
  exact (proj1 (C10_requestBatchDecryption_folds_all_scores s bob 200 7 H1 H2)).
Defined.

End Concrete.

Section ConcreteMock.

Import Mock MockScenario.

Ltac replay := apply play_reaches; vm_compute; reflexivity.

(** C4, witness: request 0 is finalized by a callback; after a further
    decryption request it is still processed and every callback for it is
    a replay. *)
Lemma C4_witness :
  let w := play genesis zero_score_finalized in
  let w' := play w [mkTx Sym.bob 200 (CRequestBatchDecryption 1)] in
  reaches w w' ∧
  0 < counterRequest (w_state w) ∧
  processed (decryptionContexts_at (w_state w) 0) = true ∧
  processed (decryptionContexts_at (w_state w') 0) = true ∧
  ∀ sender cleartexts proof,
    handleDecryptionCallback sender 0 cleartexts proof (w_state w')
    = Revert ReplayAttempt.
Proof.
  cbv zeta.
  assert (Hr : reaches (play genesis zero_score_finalized)
                 (play (play genesis zero_score_finalized)
                    [mkTx Sym.bob 200 (CRequestBatchDecryption 1)])) by replay.
  assert (Hi : 0 < counterRequest (w_state (play genesis zero_score_finalized)))
    by (vm_compute; reflexivity).
  assert (Hp : processed (decryptionContexts_at
                            (w_state (play genesis zero_score_finalized)) 0)
               = true) by (vm_compute; reflexivity).
  split; [exact Hr|]. split; [exact Hi|]. split; [exact Hp|].
  exact (C4_processed_context_rejects_replay _ _ 0 Hr Hi Hp).
Defined.

(** On the cleartext stand-in, the sum of two encrypted zeros has the
    handle of the encrypted zero, so the state-hash check can pass. After
    a submission of score 0 and bob's decryption request, the callback for
    request 0 carrying a valid proof succeeds when carol sends it, and
    when bob sends it: it marks the context processed and emits
    [DecryptionComplete]. The function has no check on its caller. *)
Remark colliding_handles_let_any_caller_through :
  let w := play genesis zero_score in
  let s := w_state w in
  let call sender :=
    handleDecryptionCallback sender 0 (Sym.word 0) (Sym.sign 0 (Sym.word 0)) in
  reachable w ∧
  succeeds (call Sym.carol) s = true ∧
  succeeds (call Sym.bob) s = true ∧
  processed (decryptionContexts_at (run (call Sym.carol) s) 0) = true ∧
  log (run (call Sym.carol) s) = log s ++ [DecryptionComplete 0 1 0] ∧
  ¬ ∃ oracle : Z, ∀ sender, sender ≠ oracle → succeeds (call sender) s = false.
Proof.
  cbv zeta. split; [replay|]. do 4 (split; [vm_compute; reflexivity|]).
  intros [oracle H].
  destruct (decide (oracle = Sym.carol)) as [->|Hne].
  - specialize (H Sym.bob). vm_compute in H. discriminate H. discriminate.
  - specialize (H Sym.carol (not_eq_sym Hne)). vm_compute in H. discriminate H.
Qed.

End ConcreteMock.

(** * Further properties of the contract *)

Section Administration.
Context `{FHE : FHECapability}.

(** X1. For the owner, [pause] reverts with [Paused] when the contract is
    already paused and [unpause] reverts with "Not paused" when it is not;
    from an unpaused storage, [pause] followed by [unpause] gives back the
    same storage, with the two events appended to the log. *)
Theorem X1_pause_then_unpause_restores_storage
    (s : State) (sender : address) (Howner : sender = owner_ s) :
  (paused s = true → pause sender s = Revert Paused) ∧
  (paused s = false →
     unpause sender s = Revert (RequireFailed "Not paused")) ∧
  (paused s = false →
     ∃ s1, pause sender s = Ok (tt, s1) ∧ paused s1 = true ∧
           unpause sender s1
           = Ok (tt, set_log (log s ++ [EvPaused sender; Unpaused sender]) s)).
Proof.
  subst sender. rewrite pause_eq, unpause_eq, Z.eqb_refl. simpl.
  split; [|split].
  - by intros ->.
  - by intros ->.
  - intros Hp. rewrite Hp. eexists. split; [reflexivity|]. split; [done|].
    rewrite unpause_eq. simpl. rewrite Z.eqb_refl. simpl.
    destruct s. simpl in *. subst. by rewrite <- app_assoc.
Qed.

(** X2. While the contract is paused, [requestBatchDecryption] reverts
    with [Paused] for every caller, and [submitEncryptedMod] reverts with
    [Paused] for every provider and with [NotProvider] for everybody else.
    The pause flag is read by nothing else: whether [openBatch],
    [closeBatch], [setCooldownInterval], [setMaxBatchSize], [addProvider],
    [removeProvider] or [handleDecryptionCallback] succeed does not depend
    on it. *)
Theorem X2_pause_blocks_submissions_and_requests_only (s : State) :
  (paused s = true →
     (∀ sender now b,
        requestBatchDecryption sender now b s = Revert Paused) ∧
     (∀ sender now m e,
        submitEncryptedMod sender now m e s =
        if isProvider_at s sender then Revert Paused
        else Revert NotProvider)) ∧
  (∀ flag sender,
     succeeds (openBatch sender) (set_paused flag s)
       = succeeds (openBatch sender) s ∧
     (∀ b, succeeds (closeBatch sender b) (set_paused flag s)
           = succeeds (closeBatch sender b) s) ∧
     (∀ n, succeeds (setCooldownInterval sender n) (set_paused flag s)
           = succeeds (setCooldownInterval sender n) s) ∧
     (∀ n, succeeds (setMaxBatchSize sender n) (set_paused flag s)
           = succeeds (setMaxBatchSize sender n) s) ∧
     (∀ a, succeeds (addProvider sender a) (set_paused flag s)
           = succeeds (addProvider sender a) s) ∧
     (∀ a, succeeds (removeProvider sender a) (set_paused flag s)
           = succeeds (removeProvider sender a) s) ∧
     (∀ r c p, succeeds (handleDecryptionCallback sender r c p)
                 (set_paused flag s)
               = succeeds (handleDecryptionCallback sender r c p) s)).
Proof.
  split.
  - intros Hp. split.
    + intros. by rewrite requestBatchDecryption_eq, Hp.
    + intros. rewrite submitEncryptedMod_eq, Hp.
      by destruct (isProvider_at s sender).
  - intros flag sender. unfold succeeds.
    repeat split; intros; autorewrite with closed_forms; cbv zeta;
      unfold batches_at, decryptionContexts_at; simpl;
      repeat case_match; done.
Qed.

(** X3. [addProvider(a)] by the owner makes [a] a provider and
    [removeProvider(a)] afterwards takes the role away again: [a]'s next
    [submitEncryptedMod] reverts with [NotProvider]. Neither call touches
    the flag of any other address, nor what has been submitted. *)
Theorem X3_provider_role_is_granted_and_revoked
    (s : State) (sender a : address) (Howner : sender = owner_ s) :
  ∃ s1 s2,
    addProvider sender a s = Ok (tt, s1) ∧
    isProvider_at s1 a = true ∧
    removeProvider sender a s1 = Ok (tt, s2) ∧
    isProvider_at s2 a = false ∧
    (∀ now m e, submitEncryptedMod a now m e s2 = Revert NotProvider) ∧
    (∀ a', a' ≠ a →
       isProvider_at s1 a' = isProvider_at s a' ∧
       isProvider_at s2 a' = isProvider_at s a') ∧
    modSubmitters s2 = modSubmitters s ∧
    encryptedScores s2 = encryptedScores s ∧
    batches s2 = batches s ∧
    log s2 = log s ++ [ProviderAdded a; ProviderRemoved a].
Proof.
  subst sender. rewrite addProvider_eq, Z.eqb_refl. simpl.
  eexists. eexists. split; [reflexivity|].
  rewrite removeProvider_eq. simpl. rewrite Z.eqb_refl. simpl.
  unfold isProvider_at, rd. simpl. rewrite !lookup_insert_eq. simpl.
  split; [done|]. split; [reflexivity|]. simpl.
  rewrite !lookup_insert_eq. split; [done|].
  split.
  { intros. rewrite submitEncryptedMod_eq. unfold isProvider_at, rd. simpl.
    by rewrite lookup_insert_eq. }
  split.
  { intros a' Hne. by rewrite !lookup_insert_ne by congruence. }
  do 3 (split; [reflexivity|]). simpl. by rewrite <- app_assoc.
Qed.

End Administration.

Section Configuration.
Context `{FHE : FHECapability}.

Lemma cooldown_floor_step w t :
  MIN_INTERVAL ≤ cooldownInterval (w_state w) →
  MIN_INTERVAL ≤ cooldownInterval (w_state (apply_tx w t)).
Proof.
  destruct w as [s tm], t as [sender now c]; simpl. intros H.
  run_call c; simpl in *; lia.
Qed.

(** X4. In every reachable world the cooldown interval is at least
    [MIN_INTERVAL] (5 seconds) and [maxBatchSize] is at least 1:
    [setCooldownInterval] turns a smaller interval away with "Interval too
    small", [setMaxBatchSize] turns zero away with "Invalid size", and a
    caller who is not the owner gets [NotOwner] from both. *)
Theorem X4_configuration_stays_within_bounds (w : World) (Hw : reachable w) :
  let s := w_state w in
  MIN_INTERVAL ≤ cooldownInterval s ∧
  1 ≤ maxBatchSize s ≤ MAX_UINT256 ∧
  (∀ sender n, sender ≠ owner_ s →
     setCooldownInterval sender n s = Revert NotOwner ∧
     setMaxBatchSize sender n s = Revert NotOwner) ∧
  (∀ n, n < MIN_INTERVAL →
     setCooldownInterval (owner_ s) n s
     = Revert (RequireFailed "Interval too small")) ∧
  (∀ n, n ≤ 0 →
     setMaxBatchSize (owner_ s) n s = Revert (RequireFailed "Invalid size")) ∧
  (∀ n, MIN_INTERVAL ≤ n →
     ∃ s', setCooldownInterval (owner_ s) n s = Ok (tt, s') ∧
           cooldownInterval s' = n ∧
           log s' = log s ++ [CooldownUpdated (cooldownInterval s) n]) ∧
  (∀ n, 0 < n →
     ∃ s', setMaxBatchSize (owner_ s) n s = Ok (tt, s') ∧
           maxBatchSize s' = n ∧ log s' = log s).
Proof.
  cbv zeta. split.
  { induction Hw as [|w t _ IH _ _]; [simpl; unfold MIN_INTERVAL; lia|].
    by apply cooldown_floor_step. }
  pose proof (inv_max _ (reachable_inv w Hw)) as Hmax.
  split; [lia|].
  split.
  { intros sender n Hne. rewrite setCooldownInterval_eq, setMaxBatchSize_eq.
    destruct (sender =? owner_ (w_state w)) eqn:E; [|done].
    apply Z.eqb_eq in E. done. }
  split.
  { intros n Hn. rewrite setCooldownInterval_eq, Z.eqb_refl. simpl.
    destruct (MIN_INTERVAL <=? n) eqn:E; [|done]. apply Z.leb_le in E. lia. }
  split.
  { intros n Hn. rewrite setMaxBatchSize_eq, Z.eqb_refl. simpl.
    destruct (0 <? n) eqn:E; [|done]. apply Z.ltb_lt in E. lia. }
  split.
  { intros n Hn. rewrite setCooldownInterval_eq, Z.eqb_refl. simpl.
    destruct (MIN_INTERVAL <=? n) eqn:E; [|apply Z.leb_gt in E; lia].
    simpl. eauto. }
  intros n Hn. rewrite setMaxBatchSize_eq, Z.eqb_refl. simpl.
  destruct (0 <? n) eqn:E; [|apply Z.ltb_ge in E; lia]. simpl. eauto.
Qed.

End Configuration.

Section OwnerOnly.
Context `{FHE : FHECapability}.

(** X5. Once the contract is initialized, a transaction whose sender is not
    the owner changes none of the settings: the owner, the pause flag, the
    cooldown interval, [maxBatchSize], the provider flags and
    [currentBatchId] stay as they are, no batch is created, and every
    batch keeps its [isOpen] flag. *)
Theorem X5_only_the_owner_changes_the_settings
    (w : World) (t : Tx)
    (Hinit : initialized_ (w_state w) = true)
    (Hother : tx_sender t ≠ owner_ (w_state w)) :
  let s := w_state w in
  let s' := w_state (apply_tx w t) in
  owner_ s' = owner_ s ∧ paused s' = paused s ∧
  cooldownInterval s' = cooldownInterval s ∧
  maxBatchSize s' = maxBatchSize s ∧
  isProvider s' = isProvider s ∧
  currentBatchId s' = currentBatchId s ∧
  (∀ b, batches s !! b = None → batches s' !! b = None) ∧
  (∀ b, isOpen (batches_at s' b) = isOpen (batches_at s b)).
Proof.
  destruct w as [s tm], t as [sender now c]; simpl in *.
  run_call c.
  all: repeat split; try done.
  all: intros b; unfold batches_at, rd in *; simpl in *.
  all: destruct (decide (currentBatchId s = b)) as [<-|Hne];
       rewrite ?lookup_insert_eq, ?lookup_insert_ne by done; try done.
  intros Hb. rewrite Hb in *. done.
Qed.

End OwnerOnly.

Section BatchIds.
Context `{FHE : FHECapability}.

Lemma batch_ids_step w t :
  Inv w → admissible w t →
  (initialized_ (w_state w) = true →
     owner_ (w_state w) ≠ 0 ∧ 1 ≤ currentBatchId (w_state w) ∧
     ∀ b, 1 ≤ b ≤ currentBatchId (w_state w) →
          is_Some (batches (w_state w) !! b)) →
  initialized_ (w_state (apply_tx w t)) = true →
  owner_ (w_state (apply_tx w t)) ≠ 0 ∧
  1 ≤ currentBatchId (w_state (apply_tx w t)) ∧
  ∀ b, 1 ≤ b ≤ currentBatchId (w_state (apply_tx w t)) →
       is_Some (batches (w_state (apply_tx w t)) !! b).
Proof.
  intros HI (Hs & Ht & Hwf) IH.
  pose proof (inv_cur _ HI) as Hcur.
  destruct w as [s tm], t as [sender now c]; simpl in *.
  run_call c.
  all: try (intros Hi; destruct (IH Hi) as (Ho & Hc1 & Hall);
            repeat split; try done; try lia; fail).
  all: intros Hi; try destruct (IH Hi) as (Ho & Hc1 & Hall).
  all: split; [done|].
  all: split; [lia|].
  all: intros b Hb;
       match goal with
       | |- is_Some (<[?k := _]> _ !! b) =>
           destruct (decide (k = b)) as [Heq|Hne];
           [rewrite Heq, lookup_insert_eq; eauto
           | rewrite lookup_insert_ne by done]
       end.
  all: try (apply Hall; lia).
  lia.
Qed.

(** X6. After [initialize], batch ids are handed out one by one: in every
    reachable world the batches that exist are exactly those with an id
    from 1 to [currentBatchId], and a transaction leaves [currentBatchId]
    as it is or raises it by one. *)
Theorem X6_batch_ids_are_sequential (w : World) (t : Tx)
    (Hw : reachable w) (Ht : admissible w t) :
  let s := w_state w in
  (initialized_ s = true →
     1 ≤ currentBatchId s ∧
     ∀ b, is_Some (batches s !! b) ↔ 1 ≤ b ≤ currentBatchId s) ∧
  (initialized_ s = false → currentBatchId s = 0 ∧ batches s = ∅) ∧
  currentBatchId s ≤ currentBatchId (w_state (apply_tx w t)) ≤
    currentBatchId s + 1.
Proof.
  pose proof (reachable_inv w Hw) as HI. cbv zeta.
  split; [|split].
  - intros Hi.
    assert (H : initialized_ (w_state w) = true →
              owner_ (w_state w) ≠ 0 ∧ 1 ≤ currentBatchId (w_state w) ∧
              ∀ b, 1 ≤ b ≤ currentBatchId (w_state w) →
                   is_Some (batches (w_state w) !! b)).
    { clear Hi Ht HI. induction Hw as [|w1 t1 Hr IH Ha _]; [done|].
      apply batch_ids_step; try done.
      eapply reaches_under_inv; [apply inv_genesis | done]. }
    destruct (H Hi) as (_ & H1 & Hall). split; [done|].
    intros b. split; [|apply Hall].
    intros [ba Hb]. by eapply inv_dom.
  - intros Hi. destruct (inv_preinit _ HI Hi) as (_ & Hc & Hb & _). done.
  - destruct Ht as (Hs & Htm & Hwf).
    pose proof (inv_preinit _ HI) as Hpre. pose proof (inv_cur _ HI) as Hcur.
    destruct w as [s tm], t as [sender now c]; simpl in *.
    run_call c; lia.
Qed.

End BatchIds.

Section SubmissionRegistry.
Context `{FHE : FHECapability}.

Lemma registry_frame s s' :
  (initialized_ s' = false → initialized_ s = false) →
  batches s' = batches s →
  modSubmitters s' = modSubmitters s → modBatchIds s' = modBatchIds s →
  encryptedScores s' = encryptedScores s →
  Registry s → Registry s'.
Proof.
  intros E1 E2 E3 E4 E5 [H1 H2 H3 H4].
  constructor; unfold modSubmitters_at in *; rewrite ?E2, ?E3, ?E4, ?E5;
    auto.
Qed.

Lemma registry_new_batch s b :
  batches s !! b = None →
  Registry s →
  Registry (set_batches (<[b := mkBatch true 0 [] (FHE_asEuint32 0)]> (batches s)) s).
Proof.
  intros Hb [H1 H2 H3 H4]. constructor; simpl.
  - done.
  - intros b0 ba m Hl Hin.
    apply lookup_insert_Some in Hl as [[<- <-]|[Hne Hl]].
    + simpl in Hin. by apply elem_of_nil in Hin.
    + by eapply H2.
  - intros m a Hm. destruct (H3 m a Hm) as (Ha & Hsc & b0 & ba & Hmb & Hl & Hin).
    split; [done|]. split; [done|]. exists b0, ba. split; [done|].
    split; [|done]. rewrite lookup_insert_ne; [done|]. congruence.
  - intros b0 ba Hl.
    apply lookup_insert_Some in Hl as [[<- <-]|[Hne Hl]].
    + constructor.
    + by eapply H4.
Qed.

Lemma registry_close s b ba :
  batches s !! b = Some ba →
  Registry s →
  Registry (set_batches
              (<[b := mkBatch false (modCount ba) (modIds ba)
                        (encryptedAggregate ba)]> (batches s)) s).
Proof.
  intros Hb [H1 H2 H3 H4]. constructor; simpl.
  - done.
  - intros b0 ba0 m Hl Hin.
    apply lookup_insert_Some in Hl as [[<- <-]|[Hne Hl]]; by eapply H2.
  - intros m a Hm. destruct (H3 m a Hm) as (Ha & Hsc & b0 & ba0 & Hmb & Hl & Hin).
    split; [done|]. split; [done|].
    destruct (decide (b = b0)) as [<-|Hne].
    + eexists b, _. split; [done|]. rewrite lookup_insert_eq.
      split; [done|]. simpl. congruence.
    + exists b0, ba0. by rewrite lookup_insert_ne.
  - intros b0 ba0 Hl.
    apply lookup_insert_Some in Hl as [[<- <-]|[Hne Hl]]; simpl; by eapply H4.
Qed.

Lemma registry_submit s sender m e cur ba :
  initialized_ s = true → sender ≠ 0 → modSubmitters_at s m = 0 →
  batches s !! cur = Some ba →
  Registry s →
  Registry
    (set_batches
       (<[cur := mkBatch (isOpen ba) (modCount ba + 1) (modIds ba ++ [m])
                   (encryptedAggregate ba)]> (batches s))
       (set_encryptedScores (<[m := e]> (encryptedScores s))
          (set_modBatchIds (<[m := cur]> (modBatchIds s))
             (set_modSubmitters (<[m := sender]> (modSubmitters s)) s)))).
Proof.
  intros Hinit Hs Hfresh Hb [H1 H2 H3 H4].
  assert (Hold : ∀ b0 ba0 m0, batches s !! b0 = Some ba0 → m0 ∈ modIds ba0 →
                   m0 ≠ m).
  { intros b0 ba0 m0 Hl Hin ->. by destruct (H2 _ _ _ Hl Hin). }
  constructor; simpl.
  - intros Hi. congruence.
  - intros b0 ba0 m0 Hl Hin. unfold modSubmitters_at, rd. simpl.
    apply lookup_insert_Some in Hl as [[<- <-]|[Hne Hl]]; simpl in *.
    + apply elem_of_app in Hin as [Hin|Hin].
      * pose proof (Hold _ _ _ Hb Hin).
        rewrite !lookup_insert_ne by done. by eapply H2.
      * apply list_elem_of_singleton in Hin as ->.
        by rewrite !lookup_insert_eq.
    + pose proof (Hold _ _ _ Hl Hin).
      rewrite !lookup_insert_ne by done. by eapply H2.
  - intros m0 a Hm.
    apply lookup_insert_Some in Hm as [[<- <-]|[Hne Hm]].
    + split; [done|]. rewrite !lookup_insert_eq. split; [eauto|].
      exists cur. eexists. split; [done|]. rewrite lookup_insert_eq.
      split; [done|]. simpl.
      apply elem_of_app. right. by apply list_elem_of_singleton.
    + destruct (H3 m0 a Hm) as (Ha & Hsc & b0 & ba0 & Hmb & Hl & Hin).
      split; [done|]. rewrite !lookup_insert_ne by done. split; [done|].
      destruct (decide (cur = b0)) as [<-|Hnb].
      * eexists cur, _. split; [done|]. rewrite lookup_insert_eq.
        split; [done|]. simpl. apply elem_of_app. left. congruence.
      * exists b0, ba0. by rewrite lookup_insert_ne.
  - intros b0 ba0 Hl.
    apply lookup_insert_Some in Hl as [[<- <-]|[Hne Hl]]; simpl.
    + apply NoDup_app. split; [by eapply H4|]. split; [|apply NoDup_singleton].
      intros m0 Hin Hin'. apply list_elem_of_singleton in Hin' as ->.
      by eapply Hold.
    + by eapply H4.
Qed.

Lemma registry_step w t :
  Inv w → admissible w t →
  Registry (w_state w) → Registry (w_state (apply_tx w t)).
Proof.
  intros HI (Hs & Ht & Hwf) HR.
  pose proof (not_initialized_facts w (tx_sender t) HI Hs) as Hfresh.
  pose proof (inv_dom _ HI) as Hdom.
  destruct w as [s tm], t as [sender now c]; simpl in *.
  run_call c.
  all: try (eapply registry_frame; [..|exact HR]; simpl; done).
  - (* initialize *)
    eapply registry_frame;
      [| | | | |apply (registry_new_batch s 1); [|exact HR]];
      try reflexivity; try done.
    by destruct (Hfresh eq_refl) as (_ & _ & Hnone).
  - (* openBatch *)
    eapply registry_frame;
      [| | | | |apply (registry_new_batch s (currentBatchId s + 1));
                [|exact HR]]; try reflexivity; try done.
    destruct (batches s !! (currentBatchId s + 1)) eqn:E; [|done].
    apply Hdom in E. lia.
  - (* closeBatch *)
    unfold batches_at, rd in *.
    match goal with
    | H : isOpen (default Batch_unset (batches s !! ?b)) = true |- _ =>
        destruct (batches s !! b) as [ba|] eqn:E; simpl in *; [|done];
        eapply registry_frame; [| | | | |apply (registry_close s b ba E HR)];
        try reflexivity; done
    end.
  - (* submitEncryptedMod *)
    unfold batches_at, rd in *. simpl in *.
    destruct (batches s !! currentBatchId s) as [ba|] eqn:E; simpl in *;
      [|done].
    eapply registry_frame;
      [| | | | |apply (registry_submit s sender modId encryptedScore
                         (currentBatchId s) ba)]; try reflexivity; try done.
    destruct (initialized_ s) eqn:Hi; [done|].
    destruct (Hfresh eq_refl) as (_ & Hp & _). congruence.
Qed.

End SubmissionRegistry.

Section BatchContents.
Context `{FHE : FHECapability}.

Lemma reachable_registry w : reachable w → Registry (w_state w).
Proof.
  induction 1 as [|w t Hr IH Ha _].
  - constructor; simpl; try done.
    all: intros; by rewrite lookup_empty in *.
  - apply registry_step; try done.
    eapply reaches_under_inv; [apply inv_genesis | done].
Qed.

(** X7. In every reachable world the submission registry and the batch
    lists agree: a mod identifier listed in batch [b] is recorded with a
    real submitter and [modBatchIds] says [b]; a recorded identifier is
    listed in the batch [modBatchIds] names, which exists; no batch lists
    an identifier twice, and [modCount] is the length of the list. So
    every recorded identifier sits in exactly one batch. *)
Theorem X7_registry_and_batch_lists_agree (w : World) (Hw : reachable w) :
  let s := w_state w in
  (∀ b m, m ∈ modIds (batches_at s b) →
     modSubmitters_at s m ≠ 0 ∧ modBatchIds_at s m = b) ∧
  (∀ m, modSubmitters_at s m ≠ 0 →
     m ∈ modIds (batches_at s (modBatchIds_at s m)) ∧
     1 ≤ modBatchIds_at s m ≤ currentBatchId s) ∧
  (∀ b, NoDup (modIds (batches_at s b)) ∧
        modCount (batches_at s b)
        = Z.of_nat (length (modIds (batches_at s b)))).
Proof.
  pose proof (reachable_inv w Hw) as HI.
  destruct (reachable_registry w Hw) as [H1 H2 H3 H4].
  cbv zeta. unfold batches_at, modSubmitters_at, modBatchIds_at, rd.
  split; [|split].
  - intros b m Hin.
    destruct (batches (w_state w) !! b) as [ba|] eqn:Hb; simpl in *;
      [|by apply elem_of_nil in Hin].
    destruct (H2 b ba m Hb Hin) as [Hs Hm]. split; [done|]. by rewrite Hm.
  - intros m Hm.
    destruct (modSubmitters (w_state w) !! m) as [a|] eqn:Ha; [|done].
    destruct (H3 m a Ha) as (_ & _ & b & ba & Hmb & Hb & Hin).
    rewrite Hmb. simpl. rewrite Hb. simpl. split; [done|].
    by eapply inv_dom.
  - intros b. destruct (batches (w_state w) !! b) as [ba|] eqn:Hb; simpl.
    + split; [by eapply H4 | by eapply inv_len].
    + split; [constructor | done].
Qed.

(** What one transaction does to a batch that exists. *)
Lemma batch_evolution w t b ba :
  Inv w → admissible w t →
  batches (w_state w) !! b = Some ba →
  ∃ ba', batches (w_state (apply_tx w t)) !! b = Some ba' ∧
    (ba' = ba ∨
     (isOpen ba = true ∧
      ba' = mkBatch false (modCount ba) (modIds ba) (encryptedAggregate ba) ∧
      tx_call t = CCloseBatch b ∧ tx_sender t = owner_ (w_state w)) ∨
     (∃ m e, isOpen ba = true ∧ b = currentBatchId (w_state w) ∧
             modCount ba < maxBatchSize (w_state w) ∧
             tx_call t = CSubmitEncryptedMod m e ∧
             ba' = mkBatch true (modCount ba + 1) (modIds ba ++ [m])
                     (encryptedAggregate ba))).
Proof.
  intros HI (Hs & Ht & Hwf) Hb.
  pose proof (not_initialized_facts w (tx_sender t) HI Hs) as Hfresh.
  pose proof (inv_dom _ HI _ _ Hb) as Hdom.
  destruct w as [s tm], t as [sender now c]; simpl in *.
  run_call c.
  all: try (exists ba; split; [eassumption | by left]).
  all: unfold batches_at, rd in *; simpl in *.
  all: match goal with
       | |- context [<[?k := _]> _ !! ?b0] =>
           destruct (decide (k = b0)) as [Heq|Hne];
           [rewrite Heq, lookup_insert_eq | rewrite lookup_insert_ne by done]
       end.
  all: try (exists ba; split; [eassumption | by left]).
  all: try rewrite Heq in *; try rewrite Hb in *; simpl in *.
  all: try (exfalso; lia).
  - destruct (Hfresh eq_refl) as (_ & _ & Hnone). by rewrite Hnone in Hb.
  - eexists. split; [reflexivity|]. right. left. done.
  - eexists. split; [reflexivity|]. right. right.
    exists modId, encryptedScore.
    match goal with H : isOpen ba = true |- _ => rewrite H end. done.
Qed.

Lemma batch_history w w' b ba :
  Inv w → reaches w w' →
  batches (w_state w) !! b = Some ba →
  ∃ ba', batches (w_state w') !! b = Some ba' ∧
         modIds ba `prefix_of` modIds ba' ∧
         modCount ba ≤ modCount ba' ∧
         (isOpen ba = false → ba' = ba).
Proof.
  intros HI Hr Hb. induction Hr as [|w1 t Hr IH Ha _].
  - exists ba. by repeat split.
  - destruct IH as (ba1 & Hb1 & Hpre & Hcnt & Hclosed).
    destruct (batch_evolution w1 t b ba1) as (ba2 & Hb2 & Hcases);
      [by eapply reaches_under_inv | done | done |].
    exists ba2. split; [done|].
    destruct Hcases as [->|[(Ho & -> & _)|(m & e & Ho & _ & _ & _ & ->)]];
      simpl.
    + done.
    + repeat split; try done. intros Hc. specialize (Hclosed Hc). subst ba1.
      congruence.
    + split; [by etrans; [|apply prefix_app_r]|]. split; [lia|].
      intros Hc. specialize (Hclosed Hc). subst ba1. congruence.
Qed.

(** X8. One transaction changes the list of an existing batch in one way
    only: a successful [submitEncryptedMod] appends its mod identifier at
    the end, and then the batch is the current one, is open and held fewer
    than [maxBatchSize] submissions. Over any number of transactions the
    old list stays a prefix of the new one and [modCount] never goes
    down. *)
Theorem X8_batch_lists_are_append_only
    (w : World) (t : Tx) (b : uint256) (ba : Batch)
    (Hw : reachable w) (Ht : admissible w t)
    (Hb : batches (w_state w) !! b = Some ba) :
  (∃ ba', batches (w_state (apply_tx w t)) !! b = Some ba' ∧
     (modIds ba' = modIds ba ∧ modCount ba' = modCount ba ∨
      ∃ m e, tx_call t = CSubmitEncryptedMod m e ∧
             modIds ba' = modIds ba ++ [m] ∧
             modCount ba' = modCount ba + 1 ∧
             b = currentBatchId (w_state w) ∧ isOpen ba = true ∧
             modCount ba < maxBatchSize (w_state w))) ∧
  (∀ w', reaches w w' →
     ∃ ba', batches (w_state w') !! b = Some ba' ∧
            modIds ba `prefix_of` modIds ba' ∧
            modCount ba ≤ modCount ba').
Proof.
  pose proof (reachable_inv w Hw) as HI. split.
  - destruct (batch_evolution w t b ba HI Ht Hb) as (ba' & Hb' & Hcases).
    exists ba'. split; [done|].
    destruct Hcases as [->|[(Ho & -> & _)|(m & e & Ho & Hc & Hm & Hcall & ->)]];
      simpl; [by left | by left |].
    right. exists m, e. done.
  - intros w' Hr.
    destruct (batch_history w w' b ba HI Hr Hb) as (ba' & Hb' & Hp & Hc & _).
    eauto.
Qed.

(** X9. A closed batch is frozen: in every later world its record is the
    same, the scores of its submissions are the same, and so are the
    aggregate folded over them and its state hash. *)
Theorem X9_closed_batch_has_a_stable_commitment
    (w w' : World) (b : uint256) (ba : Batch)
    (Hw : reachable w) (Hr : reaches w w')
    (Hb : batches (w_state w) !! b = Some ba)
    (Hclosed : isOpen ba = false) :
  batches (w_state w') !! b = Some ba ∧
  (∀ m, m ∈ modIds ba →
     encryptedScores_at (w_state w') m = encryptedScores_at (w_state w) m) ∧
  spec_recomputeAggregate (w_state w') b
    = spec_recomputeAggregate (w_state w) b ∧
  spec_stateHash (w_state w') b = spec_stateHash (w_state w) b.
Proof.
  pose proof (reachable_inv w Hw) as HI.
  destruct (batch_history w w' b ba HI Hr Hb) as (ba' & Hb' & _ & _ & Hsame).
  rewrite (Hsame Hclosed) in Hb'.
  assert (Hscores : ∀ m, m ∈ modIds ba →
            encryptedScores_at (w_state w') m
            = encryptedScores_at (w_state w) m).
  { intros m Hin.
    destruct (reg_member _ (reachable_registry w Hw) b ba m Hb Hin) as [Hm _].
    destruct (recorded_steps w w' m Hr Hm) as (_ & _ & E).
    unfold encryptedScores_at, rd. by rewrite E. }
  assert (Hagg : spec_recomputeAggregate (w_state w') b
                 = spec_recomputeAggregate (w_state w) b).
  { unfold spec_recomputeAggregate, batches_at, rd. rewrite Hb, Hb'. simpl.
    f_equal. apply map_ext_in. intros m Hin. apply Hscores.
    by apply list_elem_of_In. }
  split; [done|]. split; [done|]. split; [done|].
  unfold spec_stateHash. by rewrite Hagg.
Qed.

(** X10. [submitEncryptedMod] never looks at the handle it is given, so it
    accepts an uninitialized one like any other. Once such a score sits in
    batch [b], every [requestBatchDecryption(b)] fails, for every caller,
    at any time, in every later world. *)
Theorem X10_uninitialized_score_blocks_the_batch
    (w w' : World) (b : uint256) (m : bytes32)
    (Hw : reachable w) (Hr : reaches w w')
    (Hin : m ∈ modIds (batches_at (w_state w) b))
    (Hbad : FHE_isInitialized (encryptedScores_at (w_state w) m) = false) :
  (∀ s sender now m' e e',
     succeeds (submitEncryptedMod sender now m' e) s
     = succeeds (submitEncryptedMod sender now m' e') s) ∧
  ∀ sender now,
    succeeds (requestBatchDecryption sender now b) (w_state w') = false.
Proof.
  pose proof (reachable_inv w Hw) as HI. split.
  { intros. unfold succeeds. autorewrite with closed_forms. cbv zeta.
    repeat case_match; simplify_eq; try done;
      autorewrite with closed_forms in *; cbv zeta in *;
      repeat case_match; simplify_eq; done. }
  unfold batches_at, rd in Hin.
  destruct (batches (w_state w) !! b) as [ba|] eqn:Hb; simpl in Hin;
    [|by apply elem_of_nil in Hin].
  destruct (batch_history w w' b ba HI Hr Hb) as (ba' & Hb' & Hp & _ & _).
  destruct (reg_member _ (reachable_registry w Hw) b ba m Hb Hin) as [Hm _].
  destruct (recorded_steps w w' m Hr Hm) as (_ & _ & E).
  assert (Hin' : m ∈ modIds ba').
  { destruct Hp as [k ->]. apply elem_of_app. by left. }
  assert (Hbad' : FHE_isInitialized (encryptedScores_at (w_state w') m)
                  = false).
  { unfold encryptedScores_at, rd in *. by rewrite E. }
  intros sender now. unfold succeeds.
  rewrite requestBatchDecryption_eq.
  destruct (paused (w_state w')); [done|].
  rewrite rateLimited_request_eq. repeat case_match; try done.
  all: simplify_eq.
  all: rewrite requestBatchDecryption_body_eq in *; cbv zeta in *.
  all: change (batches_at (set_lastRequestAt _ ?s) b)
         with (batches_at s b) in *.
  all: unfold batches_at, rd in *; rewrite Hb' in *; simpl in *.
  all: rewrite (forallb_initialized_false _ (modIds ba')) in *;
       [repeat case_match; done|].
  all: exists m; split; [done|]; exact Hbad'.
Qed.

End BatchContents.

Section Contexts.
Context `{FHE : FHECapability}.

Lemma contexts_issued_preserved w t :
  Inv w → admissible w t →
  contexts_issued (w_state w) → contexts_issued (w_state (apply_tx w t)).
Proof.
  intros HI Ha (Hc0 & Hpre & Hall).
  assert (Hkeep : ∀ r, 0 ≤ r < counterRequest (w_state w) →
            (∀ ctx, decryptionContexts (w_state w) !! r = Some ctx →
               ∃ ctx', decryptionContexts (w_state (apply_tx w t)) !! r
                       = Some ctx' ∧
                       requester ctx' = requester ctx ∧
                       batchId ctx' = batchId ctx)).
  { intros r Hr ctx Hctx. clear Hall Hpre.
    destruct w as [s tm], t as [sender now c]; simpl in *.
    run_call c.
    all: try (exists ctx; by split).
    - destruct (decide (counterRequest s = r)) as [<-|Hne]; [lia|].
      exists ctx. by rewrite lookup_insert_ne.
    - destruct (decide (requestId = r)) as [->|Hne].
      + eexists. rewrite lookup_insert_eq. split; [done|].
        unfold decryptionContexts_at, rd. by rewrite Hctx.
      + exists ctx. by rewrite lookup_insert_ne. }
  assert (Hbatch : ∀ b ba, batches (w_state w) !! b = Some ba →
            0 < modCount ba →
            ∃ ba', batches (w_state (apply_tx w t)) !! b = Some ba' ∧
                   0 < modCount ba').
  { intros b ba Hb Hpos.
    destruct (batch_evolution w t b ba HI Ha Hb) as (ba' & Hb' & Hcases).
    exists ba'. split; [done|].
    destruct Hcases as [->|[(_ & -> & _)|(m & e & _ & _ & _ & _ & ->)]];
      simpl; lia. }
  assert (Hold : ∀ r, 0 ≤ r < counterRequest (w_state w) →
            ∃ ctx ba,
              decryptionContexts (w_state (apply_tx w t)) !! r = Some ctx ∧
              requester ctx ≠ 0 ∧
              batches (w_state (apply_tx w t)) !! batchId ctx = Some ba ∧
              0 < modCount ba).
  { intros r Hr. destruct (Hall r Hr) as (ctx & ba & Hctx & Hreq & Hb & Hpos).
    destruct (Hkeep r Hr ctx Hctx) as (ctx' & Hctx' & E1 & E2).
    destruct (Hbatch _ _ Hb Hpos) as (ba' & Hb' & Hpos').
    exists ctx', ba'. rewrite E1, E2. done. }
  clear Hkeep Hbatch.
  pose proof (inv_preinit _ HI) as Hpi. pose proof (inv_len _ HI) as Hlen.
  destruct Ha as (Hs & Ht & Hwf).
  destruct w as [s tm], t as [sender now c]; simpl in *.
  revert Hold. run_call c; intros Hold.
  all: try (split; [lia|]; split; [done|]; exact Hold).
  (* requestBatchDecryption *)
  unfold contexts_issued, batches_at, rd in *. simpl in *.
  match goal with
  | H : context [batches s !! ?b] |- _ =>
      is_var b; destruct (batches s !! b) as [ba|] eqn:Hb
  end; simpl in *; [|done].
  split; [lia|]. split.
  { intros Hi. destruct (Hpi Hi) as (_ & _ & Hbe & _).
    rewrite Hbe, lookup_empty in Hb. done. }
  intros r Hr. destruct (decide (r = counterRequest s)) as [->|Hne].
  - eexists _, ba. rewrite lookup_insert_eq. split; [done|]. simpl.
    split; [done|]. split; [done|].
    pose proof (Hlen _ _ Hb). lia.
  - apply Hold. lia.
Qed.

Lemma context_fields_step w t r :
  0 ≤ r < counterRequest (w_state w) →
  let c := decryptionContexts_at (w_state w) r in
  let c' := decryptionContexts_at (w_state (apply_tx w t)) r in
  batchId c' = batchId c ∧ stateHash c' = stateHash c ∧
  requester c' = requester c ∧
  (processed c = true → processed c' = true) ∧
  r < counterRequest (w_state (apply_tx w t)) ∧
  counterRequest (w_state w) ≤ counterRequest (w_state (apply_tx w t)).
Proof.
  destruct w as [s tm], t as [sender now c]; simpl. intros Hr.
  run_call c.
  all: unfold decryptionContexts_at, rd in *; simpl in *.
  all: try (repeat split; try done; lia).
  all: match goal with
       | |- context [<[?k := _]> _ !! ?r0] =>
           destruct (decide (k = r0)) as [Heq|Hne];
           [rewrite Heq, lookup_insert_eq | rewrite lookup_insert_ne by done]
       end; simpl.
  all: try (repeat split; try done; lia).
  all: subst; repeat split; try done; lia.
Qed.

(** X11. In every reachable world every issued request id has a context,
    asked for by a real account for a batch that exists and holds at least
    one submission. In every later world that context has the same batch
    id, state hash and requester: the callback changes the [processed]
    flag and nothing else of it, and the request counter never goes
    down. *)
Theorem X11_issued_contexts_are_immutable
    (w w' : World) (r : uint256)
    (Hw : reachable w) (Hr : reaches w w')
    (Hissued : 0 ≤ r < counterRequest (w_state w)) :
  let c := decryptionContexts_at (w_state w) r in
  let c' := decryptionContexts_at (w_state w') r in
  is_Some (decryptionContexts (w_state w) !! r) ∧
  requester c ≠ 0 ∧
  0 < modCount (batches_at (w_state w) (batchId c)) ∧
  1 ≤ batchId c ≤ currentBatchId (w_state w) ∧
  batchId c' = batchId c ∧ stateHash c' = stateHash c ∧
  requester c' = requester c ∧
  counterRequest (w_state w) ≤ counterRequest (w_state w').
Proof.
  cbv zeta.
  assert (Hiss : contexts_issued (w_state w)).
  { clear Hr Hissued. induction Hw as [|w1 t Hr IH Ha _].
    - split; [simpl; lia|]. split; [done|]. simpl. lia.
    - apply contexts_issued_preserved; try done.
      eapply reaches_under_inv; [apply inv_genesis | done]. }
  destruct Hiss as (_ & _ & Hall).
  destruct (Hall r Hissued) as (ctx & ba & Hctx & Hreq & Hb & Hpos).
  assert (Hc : decryptionContexts_at (w_state w) r = ctx).
  { unfold decryptionContexts_at, rd. by rewrite Hctx. }
  rewrite Hc. split; [eauto|]. split; [done|].
  unfold batches_at, rd. rewrite Hb. simpl. split; [done|].
  split; [exact (inv_dom _ (reachable_inv w Hw) _ _ Hb)|].
  assert (H : batchId (decryptionContexts_at (w_state w') r) = batchId ctx ∧
              stateHash (decryptionContexts_at (w_state w') r) = stateHash ctx ∧
              requester (decryptionContexts_at (w_state w') r) = requester ctx ∧
              r < counterRequest (w_state w') ∧
              counterRequest (w_state w) ≤ counterRequest (w_state w')).
  { clear Hw Hall Hb Hpos Hctx. induction Hr as [|w1 t Hr IH Ha _].
    - rewrite Hc. repeat split; try done; lia.
    - destruct IH as (E1 & E2 & E3 & Hlt & Hle).
      destruct (context_fields_step w1 t r)
        as (F1 & F2 & F3 & _ & Hlt' & Hle'); [lia|].
      repeat split; try congruence; try done; lia. }
  destruct H as (E1 & E2 & E3 & _ & Hle). done.
Qed.

End Contexts.

Section EventLog.
Context `{FHE : FHECapability}.

Lemma log_step w t :
  ∃ evs, log (w_state (apply_tx w t)) = log (w_state w) ++ evs ∧
         (length evs ≤ 1)%nat ∧
         (succeeds (dispatch (tx_call t) (tx_sender t) (tx_time t)) (w_state w)
            = false → evs = []) ∧
         forallb (fun e => negb (is_RateLimitTriggered e)) evs = true.
Proof.
  destruct w as [s tm], t as [sender now c]; simpl.
  unfold succeeds.
  run_call c.
  all: try (exists []; rewrite app_nil_r; repeat split; simpl; done || lia).
  all: eexists [_]; repeat split; simpl; done || lia.
Qed.

(** X12. The event log only grows: a transaction appends at most one
    event, none when its call reverts, and never removes or rewrites an
    earlier one. The event [RateLimitTriggered] is declared but no
    function emits it: it is in the log of no reachable world, however
    many calls were turned away with [RateLimited]. *)
Theorem X12_event_log_is_append_only (w w' : World)
    (Hw : reachable w) (Hr : reaches w w') :
  log (w_state w) `prefix_of` log (w_state w') ∧
  forallb (fun e => negb (is_RateLimitTriggered e)) (log (w_state w')) = true ∧
  ∀ t, ∃ evs,
    log (w_state (apply_tx w' t)) = log (w_state w') ++ evs ∧
    (length evs ≤ 1)%nat ∧
    (succeeds (dispatch (tx_call t) (tx_sender t) (tx_time t)) (w_state w')
       = false → evs = []).
Proof.
  assert (Hnone : ∀ w0, reachable w0 →
            forallb (fun e => negb (is_RateLimitTriggered e))
              (log (w_state w0)) = true).
  { intros w0 H0. induction H0 as [|w1 t _ IH _ _]; [done|].
    destruct (log_step w1 t) as (evs & -> & _ & _ & Hev).
    rewrite forallb_app, IH, Hev. done. }
  split; [|split].
  - induction Hr as [|w1 t _ IH _ _]; [done|].
    destruct (log_step w1 t) as (evs & -> & _).
    etrans; [exact IH | by apply prefix_app_r].
  - apply Hnone. by eapply reaches_trans.
  - intros t. destruct (log_step w' t) as (evs & E & Hl & Hf & _). eauto.
Qed.

Lemma submitted_in_log_app b l1 l2 :
  submitted_in_log b (l1 ++ l2) = submitted_in_log b l1 ++ submitted_in_log b l2.
Proof.
  induction l1 as [|e l1 IH]; simpl; [done|].
  destruct e; try done. destruct (_ =? b); simpl; by rewrite IH.
Qed.

Lemma submissions_logged_step w t :
  Inv w → admissible w t →
  (∀ b, submitted_in_log b (log (w_state w))
        = modIds (batches_at (w_state w) b)) →
  ∀ b, submitted_in_log b (log (w_state (apply_tx w t)))
       = modIds (batches_at (w_state (apply_tx w t)) b).
Proof.
  intros HI (Hs & Ht & Hwf) IH b.
  pose proof (not_initialized_facts w (tx_sender t) HI Hs) as Hfresh.
  pose proof (inv_dom _ HI) as Hdom.
  specialize (IH b).
  destruct w as [s tm], t as [sender now c]; simpl in *.
  revert IH. run_call c; intros IH.
  all: rewrite ?submitted_in_log_app; simpl; rewrite ?app_nil_r.
  all: unfold batches_at, rd in *; simpl in *.
  all: try done.
  all: match goal with
       | |- context [<[?k := _]> _ !! ?b0] =>
           destruct (decide (k = b0)) as [Heq|Hne];
           [rewrite Heq, lookup_insert_eq | rewrite lookup_insert_ne by done]
       end; simpl; try done.
  - destruct (Hfresh eq_refl) as (_ & _ & Hnone).
    by rewrite IH, Hnone.
  - destruct (batches s !! b) as [ba|] eqn:Hb; [|by rewrite IH].
    apply Hdom in Hb. lia.
  - rewrite Z.eqb_refl. by rewrite IH.
  - destruct (currentBatchId s =? b) eqn:E; [|by rewrite app_nil_r].
    apply Z.eqb_eq in E. done.
Qed.

(** X13. The log tells what every batch holds: in every reachable world,
    for every batch id, the mod identifiers of the [ModSubmitted] events
    for that batch, in the order of emission, are exactly the batch's
    [modIds]. *)
Theorem X13_submissions_are_logged_in_order (w : World) (b : uint256)
    (Hw : reachable w) :
  submitted_in_log b (log (w_state w)) = modIds (batches_at (w_state w) b).
Proof.
  revert b. induction Hw as [|w1 t Hr IH Ha _]; [done|].
  apply submissions_logged_step; try done.
  eapply reaches_under_inv; [apply inv_genesis | done].
Qed.

End EventLog.

Section Composition.
Context `{FHE : FHECapability}.

Lemma submit_success_effect s s' a now m e :
  submitEncryptedMod a now m e s = Ok (tt, s') →
  isProvider_at s a = true ∧ paused s = false ∧
  isProvider s' = isProvider s ∧ paused s' = paused s ∧
  cooldownInterval s' = cooldownInterval s ∧
  lastSubmissionAt s' = <[a := now]> (lastSubmissionAt s) ∧
  lastRequestAt s' = lastRequestAt s.
Proof.
  autorewrite with closed_forms. cbv zeta.
  repeat (case_match; try done).
  all: autorewrite with closed_forms in *; cbv zeta in *.
  all: repeat (case_match; try done).
  all: intros [= <-]; simplify_eq; boolean_facts; done.
Qed.

(** X14. After a successful [submitEncryptedMod] by [a] at time [now], a
    further submission by [a] at a later time [now'] reverts with
    [RateLimited] as long as [now' - now] is below the cooldown interval,
    and passes the guard from then on: it succeeds when its mod identifier
    is fresh and the current batch is open and has room. The submission
    stamped [a]'s submit time only: [a]'s request cooldown and the other
    providers are not affected. *)
Theorem X14_second_submission_waits_for_the_cooldown
    (s s' : State) (a : address) (now : uint256) (m : bytes32) (e : euint32)
    (Hok : submitEncryptedMod a now m e s = Ok (tt, s')) :
  lastSubmissionAt_at s' a = now ∧
  lastRequestAt s' = lastRequestAt s ∧
  (∀ a', a' ≠ a → lastSubmissionAt_at s' a' = lastSubmissionAt_at s a') ∧
  ∀ now' m' e', now ≤ now' →
    (now' - now < cooldownInterval s →
       submitEncryptedMod a now' m' e' s' = Revert RateLimited) ∧
    (cooldownInterval s ≤ now' - now →
       modSubmitters_at s' m' = 0 →
       isOpen (batches_at s' (currentBatchId s')) = true →
       modCount (batches_at s' (currentBatchId s')) < maxBatchSize s' →
       maxBatchSize s' ≤ MAX_UINT256 →
       succeeds (submitEncryptedMod a now' m' e') s' = true).
Proof.
  destruct (submit_success_effect _ _ _ _ _ _ Hok)
    as (Hp & Hpa & Ep & Epa & Ec & El & Er).
  assert (Hlast : lastSubmissionAt_at s' a = now).
  { unfold lastSubmissionAt_at, rd. by rewrite El, lookup_insert_eq. }
  split; [done|]. split; [done|].
  split.
  { intros a' Hne. unfold lastSubmissionAt_at, rd.
    by rewrite El, lookup_insert_ne by congruence. }
  intros now' m' e' Hlater.
  assert (Hhead : submitEncryptedMod a now' m' e' s' =
            match rateLimited "submit" a now' s' with
            | Revert err => Revert err
            | Ok (_, s1) => submitEncryptedMod_body a m' e' s1
            end).
  { rewrite submitEncryptedMod_eq. unfold isProvider_at in *.
    by rewrite Ep, Hp, Epa, Hpa. }
  split.
  - intros Hshort. rewrite Hhead, rateLimited_submit_eq, Hlast, Ec.
    destruct (now' <? now) eqn:F1; [apply Z.ltb_lt in F1; lia|].
    destruct (now' - now <? _) eqn:F2; [done|]. apply Z.ltb_ge in F2. lia.
  - intros Hlong Hfresh Hopen Hroom Hmax.
    unfold succeeds. rewrite Hhead, rateLimited_submit_eq, Hlast, Ec.
    destruct (now' <? now) eqn:F1; [apply Z.ltb_lt in F1; lia|].
    destruct (now' - now <? _) eqn:F2; [apply Z.ltb_lt in F2; lia|].
    rewrite submitEncryptedMod_body_eq. cbv zeta.
    unfold modSubmitters_at, batches_at in *. simpl in *.
    rewrite Hfresh, Hopen. simpl.
    destruct (_ <=? _) eqn:F3; [apply Z.leb_le in F3; lia|].
    destruct (MAX_UINT256 <? _) eqn:F4; [apply Z.ltb_lt in F4; lia|]. done.
Qed.

End Composition.

Section BatchLifecycle.
Context `{FHE : FHECapability}.

(** X15. In a reachable world, [openBatch] by the owner takes the next
    id, which no batch had, and makes it the current batch: open, empty,
    with the encrypted zero. It leaves every other batch as it is: the
    previous one is not closed by it. The next submission that passes the
    guards with a fresh mod identifier succeeds and lands in the new
    batch, whatever state the previous batch is in. *)
Theorem X15_openBatch_starts_an_empty_current_batch
    (w : World) (Hw : reachable w)
    (Hroom : currentBatchId (w_state w) + 1 ≤ MAX_UINT256) :
  let s := w_state w in
  let next := currentBatchId s + 1 in
  ∃ s', openBatch (owner_ s) s = Ok (tt, s') ∧
        currentBatchId s' = next ∧
        batches s !! next = None ∧
        batches s' !! next = Some (mkBatch true 0 [] (FHE_asEuint32 0)) ∧
        (∀ b, b ≠ next → batches s' !! b = batches s !! b) ∧
        log s' = log s ++ [BatchOpened next] ∧
        ∀ sender now m e,
          isProvider_at s sender = true → paused s = false →
          cooldown_over s (lastSubmissionAt_at s sender) now →
          modSubmitters_at s m = 0 →
          ∃ s'', submitEncryptedMod sender now m e s' = Ok (tt, s'') ∧
                 modIds (batches_at s'' next) = [m] ∧
                 ∀ b, b ≠ next → batches s'' !! b = batches s !! b.
Proof.
  pose proof (reachable_inv w Hw) as HI.
  pose proof (inv_max _ HI) as Hmax.
  pose proof (inv_dom _ HI) as Hdom. clear HI Hw.
  cbv zeta. destruct w as [s tm]. simpl in *.
  rewrite openBatch_eq, Z.eqb_refl. simpl.
  destruct (MAX_UINT256 <? currentBatchId s + 1) eqn:E;
    [apply Z.ltb_lt in E; lia|].
  eexists. split; [reflexivity|]. simpl.
  split; [done|].
  assert (Hnone : batches s !! (currentBatchId s + 1) = None).
  { destruct (batches s !! (currentBatchId s + 1)) eqn:Hb; [|done].
    apply Hdom in Hb. lia. }
  split; [done|]. rewrite lookup_insert_eq. split; [done|].
  split; [intros b Hne; by rewrite lookup_insert_ne|].
  split; [done|].
  intros sender now m e Hp Hpa [Hc1 Hc2] Hfresh.
  rewrite submitEncryptedMod_eq. unfold isProvider_at in *. simpl.
  rewrite Hp, Hpa. simpl. rewrite rateLimited_submit_eq.
  unfold lastSubmissionAt_at in *. simpl.
  destruct (now <? _) eqn:F1; [apply Z.ltb_lt in F1; lia|].
  destruct (now - _ <? _) eqn:F2; [apply Z.ltb_lt in F2; lia|].
  rewrite submitEncryptedMod_body_eq. cbv zeta.
  unfold modSubmitters_at, batches_at, rd in *. simpl.
  rewrite Hfresh, lookup_insert_eq. simpl.
  destruct (maxBatchSize s <=? 0) eqn:F3; [apply Z.leb_le in F3; lia|].
  destruct (MAX_UINT256 <? 0 + 1) eqn:F4;
    [apply Z.ltb_lt in F4; lia|].
  eexists. split; [reflexivity|]. simpl. rewrite lookup_insert_eq. simpl.
  split; [done|]. intros b Hne. by rewrite !lookup_insert_ne.
Qed.

(** X16. A batch id that was never opened behaves like an empty closed
    batch: in a reachable world, for every id outside
    [1 .. currentBatchId], [closeBatch] by the owner reverts with
    [InvalidBatch], and no [requestBatchDecryption] succeeds: it reverts
    with [InvalidBatch] once the pause and cooldown guards pass. *)
Theorem X16_unopened_batch_is_invalid
    (w : World) (b : uint256) (Hw : reachable w)
    (Hout : ¬ (1 ≤ b ≤ currentBatchId (w_state w))) :
  let s := w_state w in
  batches_at s b = Batch_unset ∧
  closeBatch (owner_ s) b s = Revert InvalidBatch ∧
  ∀ sender now,
    succeeds (requestBatchDecryption sender now b) s = false ∧
    (paused s = false → cooldown_over s (lastRequestAt_at s sender) now →
     requestBatchDecryption sender now b s = Revert InvalidBatch).
Proof.
  pose proof (reachable_inv w Hw) as HI. cbv zeta.
  assert (Hnone : batches (w_state w) !! b = None).
  { destruct (batches (w_state w) !! b) eqn:Hb; [|done].
    apply (inv_dom _ HI) in Hb. lia. }
  assert (Hun : batches_at (w_state w) b = Batch_unset).
  { unfold batches_at, rd. by rewrite Hnone. }
  split; [done|]. split.
  { rewrite closeBatch_eq, Z.eqb_refl, Hun. done. }
  intros sender now.
  assert (Hbody : ∀ x, requestBatchDecryption_body sender b
            (set_lastRequestAt x (w_state w)) = Revert InvalidBatch).
  { intros x. rewrite requestBatchDecryption_body_eq. cbv zeta.
    change (batches_at (set_lastRequestAt x (w_state w)) b)
      with (batches_at (w_state w) b). by rewrite Hun. }
  split.
  - unfold succeeds. rewrite requestBatchDecryption_eq.
    destruct (paused (w_state w)); [done|].
    rewrite rateLimited_request_eq. repeat case_match; try done.
    all: simplify_eq. all: by rewrite Hbody in *.
  - intros Hpa [Hc1 Hc2].
    rewrite requestBatchDecryption_eq, Hpa, rateLimited_request_past by done.
    destruct (now - _ <? _) eqn:F; [apply Z.ltb_lt in F; lia|].
    apply Hbody.
Qed.

End BatchLifecycle.

Section UnknownRequest.
Context `{FHE : FHECapability}.
Hypothesis keccak_never_zero : ∀ cts a, keccak256_encode cts a ≠ 0.

Lemma contexts_have_issued_ids w r ctx :
  reachable w →
  decryptionContexts (w_state w) !! r = Some ctx →
  0 ≤ r < counterRequest (w_state w).
Proof.
  intros Hw. revert r ctx.
  assert (H : 0 ≤ counterRequest (w_state w) ∧
              ∀ r ctx, decryptionContexts (w_state w) !! r = Some ctx →
                       0 ≤ r < counterRequest (w_state w)); [|by destruct H].
  induction Hw as [|w t _ [IH0 IH] (Hs & Ht & Hwf) _].
  { split; [simpl; lia|]. intros r ctx Hr. simpl in Hr.
    by rewrite lookup_empty in Hr. }
  destruct w as [s tm], t as [sender now c]; simpl in *.
  run_call c.
  all: try (split; [done|]; intros r ctx Hr; by eapply IH).
  - split; [lia|]. intros r ctx Hr. simpl in Hr.
    apply lookup_insert_Some in Hr as [[<- _]|[_ Hr]]; [lia|].
    apply IH in Hr. lia.
  - split; [done|]. intros r ctx Hr. simpl in Hr.
    apply lookup_insert_Some in Hr as [[<- _]|[_ Hr]]; [|by eapply IH].
    unfold decryptionContexts_at, rd in *.
    destruct (decryptionContexts s !! requestId) as [ctx0|] eqn:E;
      [by eapply IH|].
    simpl in *. by edestruct keccak_never_zero.
Qed.

(** X17. When the state hash is never the zero word, a callback for a
    request id that was never issued reverts with [InvalidStateHash] in
    every reachable world, for any caller, payload and proof: the unset
    context it reads carries the zero hash. Contexts exist for issued ids
    only. *)
Theorem X17_callback_for_unknown_request_reverts
    (w : World) (r : uint256) (Hw : reachable w)
    (Hunknown : ¬ (0 ≤ r < counterRequest (w_state w))) :
  decryptionContexts (w_state w) !! r = None ∧
  ∀ sender cleartexts proof,
    handleDecryptionCallback sender r cleartexts proof (w_state w)
    = Revert InvalidStateHash.
Proof.
  assert (Hnone : decryptionContexts (w_state w) !! r = None).
  { destruct (decryptionContexts (w_state w) !! r) as [ctx|] eqn:E; [|done].
    by apply (contexts_have_issued_ids w r ctx Hw) in E. }
  split; [done|]. intros.
  rewrite handleDecryptionCallback_eq. cbv zeta.
  unfold decryptionContexts_at, rd. rewrite Hnone. simpl.
  destruct (_ =? 0) eqn:E; [|done]. apply Z.eqb_eq in E.
  by apply keccak_never_zero in E.
Qed.

End UnknownRequest.

Section IncrementalAggregate.
Context `{FHE : FHECapability}.

(** X18. The aggregate grows with the batch: when a submission of score
    [e] succeeds in a reachable world, the aggregate folded over the
    current batch becomes [FHE.add] of the previous aggregate and [e], and
    the aggregate of every other batch is unchanged. *)
Theorem X18_submission_extends_the_aggregate
    (w : World) (s' : State) (sender : address) (now : uint256)
    (m : bytes32) (e : euint32)
    (Hw : reachable w)
    (Hok : submitEncryptedMod sender now m e (w_state w) = Ok (tt, s')) :
  let s := w_state w in
  spec_recomputeAggregate s' (currentBatchId s)
    = FHE_add (spec_recomputeAggregate s (currentBatchId s)) e ∧
  ∀ b, b ≠ currentBatchId s →
    spec_recomputeAggregate s' b = spec_recomputeAggregate s b.
Proof.
  cbv zeta. pose proof (reachable_registry w Hw) as HR. clear Hw.
  destruct w as [s tm]. simpl in *.
  revert Hok. autorewrite with closed_forms. cbv zeta.
  repeat (case_match; try done).
  all: autorewrite with closed_forms in *; cbv zeta in *.
  all: repeat (case_match; try done).
  simplify_eq. boolean_facts. intros [= <-].
  unfold modSubmitters_at, batches_at, rd in *. simpl in *.
  destruct (batches s !! currentBatchId s) as [ba|] eqn:Hb; simpl in *;
    [|done].
  assert (Hscores : ∀ b0 ba0, batches s !! b0 = Some ba0 →
            map (λ k, default euint32_unset
                        (<[m := e]> (encryptedScores s) !! k)) (modIds ba0)
            = map (λ k, default euint32_unset (encryptedScores s !! k))
                (modIds ba0)).
  { intros b0 ba0 Hb0. apply map_ext_in. intros k Hin.
    apply list_elem_of_In in Hin.
    destruct (reg_member _ HR b0 ba0 k Hb0 Hin) as [Hk _].
    unfold modSubmitters_at, rd in Hk.
    rewrite lookup_insert_ne; [done|]. intros ->. done. }
  unfold spec_recomputeAggregate, encryptedScores_at, batches_at, rd. simpl.
  split.
  - rewrite lookup_insert_eq, Hb. simpl.
    rewrite map_app, fold_left_app. simpl. rewrite lookup_insert_eq. simpl.
    by rewrite (Hscores _ _ Hb).
  - intros b Hne. rewrite lookup_insert_ne by done.
    destruct (batches s !! b) as [ba0|] eqn:Hb0; simpl; [|done].
    by rewrite (Hscores _ _ Hb0).
Qed.

End IncrementalAggregate.

Section Lifecycle.
Context `{FHE : FHECapability}.

Lemma modelVersion_step w t :
  modelVersion (w_state w) = (if initialized_ (w_state w) then 1 else 0) →
  modelVersion (w_state (apply_tx w t))
  = (if initialized_ (w_state (apply_tx w t)) then 1 else 0).
Proof.
  destruct w as [s tm], t as [sender now c]; simpl. intros H.
  run_call c; simpl in *; try done; try congruence.
Qed.

(** X19. In every reachable world [modelVersion] is 1 after
    initialization and 0 before: only [initialize] writes it. A
    successful [initialize] makes [owner()] a provider, sets
    [currentBatchId] to 1 and opens batch 1, empty and with the encrypted
    zero, as the only batch, emitting [BatchOpened(1)]; no mod has been
    recorded before it, and the pause flag, the cooldown interval and
    [maxBatchSize] keep their values. *)
Theorem X19_initialize_sets_up_batch_one (w : World) (Hw : reachable w) :
  let s := w_state w in
  modelVersion s = (if initialized_ s then 1 else 0) ∧
  ∀ sender s', initialize sender s = Ok (tt, s') →
    isProvider_at s' (owner_ s') = true ∧
    modelVersion s' = 1 ∧ currentBatchId s' = 1 ∧
    batches s' = {[ 1 := mkBatch true 0 [] (FHE_asEuint32 0) ]} ∧
    modSubmitters s' = ∅ ∧
    log s' = log s ++ [BatchOpened 1] ∧
    paused s' = paused s ∧
    cooldownInterval s' = cooldownInterval s ∧
    maxBatchSize s' = maxBatchSize s.
Proof.
  cbv zeta. split.
  - induction Hw as [|w1 t _ IH _ _]; [done|]. by apply modelVersion_step.
  - intros sender s'. rewrite initialize_eq.
    destruct (initialized_ (w_state w)) eqn:Hi; [done|]. intros [= <-].
    destruct (inv_preinit _ (reachable_inv w Hw) Hi) as (_ & _ & Hb & _).
    pose proof (reg_preinit _ (reachable_registry w Hw) Hi) as Hm.
    unfold isProvider_at, rd. simpl. rewrite lookup_insert_eq.
    rewrite Hb, insert_empty. repeat split; done.
Qed.

(** X20. A successful [closeBatch(b)] flips [isOpen] of batch [b] and
    nothing else: the batch keeps its list, count and aggregate, the
    other batches and [currentBatchId] stay, [BatchClosed(b)] is emitted.
    Decryption does not look at the flag: the state hash of every batch
    is the same as before and [requestBatchDecryption] succeeds after the
    close exactly when it did before. Closing the batch again reverts
    with [InvalidBatch]. *)
Theorem X20_closeBatch_flips_the_flag_only
    (s s' : State) (sender : address) (b : uint256)
    (Hok : closeBatch sender b s = Ok (tt, s')) :
  isOpen (batches_at s b) = true ∧
  batches_at s' b
    = mkBatch false (modCount (batches_at s b)) (modIds (batches_at s b))
        (encryptedAggregate (batches_at s b)) ∧
  (∀ b', b' ≠ b → batches s' !! b' = batches s !! b') ∧
  currentBatchId s' = currentBatchId s ∧
  log s' = log s ++ [BatchClosed b] ∧
  (∀ b', spec_stateHash s' b' = spec_stateHash s b') ∧
  (∀ caller now b',
     succeeds (requestBatchDecryption caller now b') s'
     = succeeds (requestBatchDecryption caller now b') s) ∧
  closeBatch sender b s' = Revert InvalidBatch.
Proof.
  revert Hok. rewrite closeBatch_eq.
  destruct (negb (sender =? owner_ s)) eqn:Ho; [done|].
  destruct (negb (isOpen (batches_at s b))) eqn:Hopen; [done|].
  intros [= <-]. apply negb_false_iff in Hopen.
  assert (Hat : ∀ b', modIds (batches_at
              (set_log (log s ++ [BatchClosed b])
                 (set_batches
                    (<[b := mkBatch false (modCount (batches_at s b))
                             (modIds (batches_at s b))
                             (encryptedAggregate (batches_at s b))]>
                       (batches s)) s)) b') = modIds (batches_at s b') ∧
            modCount (batches_at
              (set_log (log s ++ [BatchClosed b])
                 (set_batches
                    (<[b := mkBatch false (modCount (batches_at s b))
                             (modIds (batches_at s b))
                             (encryptedAggregate (batches_at s b))]>
                       (batches s)) s)) b') = modCount (batches_at s b') ∧
            encryptedAggregate (batches_at
              (set_log (log s ++ [BatchClosed b])
                 (set_batches
                    (<[b := mkBatch false (modCount (batches_at s b))
                             (modIds (batches_at s b))
                             (encryptedAggregate (batches_at s b))]>
                       (batches s)) s)) b')
            = encryptedAggregate (batches_at s b')).
  { intros b'. unfold batches_at, rd. simpl.
    destruct (decide (b = b')) as [->|Hne].
    - by rewrite lookup_insert_eq.
    - by rewrite lookup_insert_ne. }
  split; [done|]. split.
  { unfold batches_at, rd. simpl. by rewrite lookup_insert_eq. }
  split; [intros b' Hne; simpl; by rewrite lookup_insert_ne|].
  split; [done|]. split; [done|].
  assert (Hhash : ∀ b', spec_stateHash
              (set_log (log s ++ [BatchClosed b])
                 (set_batches
                    (<[b := mkBatch false (modCount (batches_at s b))
                             (modIds (batches_at s b))
                             (encryptedAggregate (batches_at s b))]>
                       (batches s)) s)) b' = spec_stateHash s b').
  { intros b'. unfold spec_stateHash, spec_recomputeAggregate.
    destruct (Hat b') as (E1 & _ & E3). rewrite E1, E3. done. }
  split; [done|]. split.
  - intros caller now b'. unfold succeeds.
    rewrite !requestBatchDecryption_eq. simpl.
    destruct (paused s); [done|].
    rewrite !rateLimited_request_eq. unfold lastRequestAt_at. simpl.
    destruct (now <? _); [done|].
    destruct (_ <? cooldownInterval s); [done|].
    rewrite !requestBatchDecryption_body_eq. cbv zeta.
    unfold batches_at, encryptedScores_at, rd. simpl.
    destruct (decide (b = b')) as [->|Hne];
      [rewrite lookup_insert_eq|rewrite lookup_insert_ne by done]; simpl;
      repeat case_match; done.
  - rewrite closeBatch_eq. simpl. rewrite Ho.
    unfold batches_at, rd. simpl. by rewrite lookup_insert_eq.
Qed.

End Lifecycle.

Section Requests.
Context `{FHE : FHECapability}.

Lemma request_success_effect s s1 caller now b :
  requestBatchDecryption caller now b s = Ok (tt, s1) →
  s1 = set_log (log s ++ [DecryptionRequested (counterRequest s) b
                            (spec_stateHash s b)])
         (set_decryptionContexts
            (<[counterRequest s :=
                 mkContext b (spec_stateHash s b) false caller]>
               (decryptionContexts s))
            (set_counterRequest (counterRequest s + 1)
               (set_lastRequestAt (<[caller := now]> (lastRequestAt s)) s))).
Proof.
  rewrite requestBatchDecryption_eq.
  destruct (paused s); [done|].
  rewrite rateLimited_request_eq.
  destruct (now <? _); [done|].
  destruct (_ <? cooldownInterval s); [done|].
  rewrite requestBatchDecryption_body_eq. cbv zeta.
  repeat case_match; try done. by intros [= <-].
Qed.

(** X21. A successful [requestBatchDecryption(b)] takes the next request
    id, stores under it a fresh unprocessed context with the batch id,
    the hash of the recomputed aggregate and the caller, stamps the
    caller's request time, emits [DecryptionRequested], and leaves
    batches, scores, submitters, provider flags and submission stamps
    alone. Requests do not exclude each other: a second successful
    request for the same batch gets the following id and the same hash,
    and the first context is still stored unchanged. The call has no role
    check: it would have succeeded whatever the provider flags were. *)
Theorem X21_requests_take_successive_ids
    (s s1 : State) (caller : address) (now b : uint256)
    (Hok : requestBatchDecryption caller now b s = Ok (tt, s1)) :
  let r := counterRequest s in
  let h := spec_stateHash s b in
  counterRequest s1 = r + 1 ∧
  decryptionContexts s1
    = <[r := mkContext b h false caller]> (decryptionContexts s) ∧
  lastRequestAt s1 = <[caller := now]> (lastRequestAt s) ∧
  log s1 = log s ++ [DecryptionRequested r b h] ∧
  batches s1 = batches s ∧ encryptedScores s1 = encryptedScores s ∧
  modSubmitters s1 = modSubmitters s ∧ modBatchIds s1 = modBatchIds s ∧
  isProvider s1 = isProvider s ∧ lastSubmissionAt s1 = lastSubmissionAt s ∧
  (∀ caller' now' s2,
     requestBatchDecryption caller' now' b s1 = Ok (tt, s2) →
     decryptionContexts_at s2 (r + 1) = mkContext b h false caller' ∧
     decryptionContexts_at s2 r = mkContext b h false caller) ∧
  (∀ flags,
     succeeds (requestBatchDecryption caller now b) (set_isProvider flags s)
     = true).
Proof.
  cbv zeta. pose proof (request_success_effect _ _ _ _ _ Hok) as E.
  do 10 (split; [by rewrite E|]). split.
  - intros caller' now' s2 Hok2.
    pose proof (request_success_effect _ _ _ _ _ Hok2) as E2.
    assert (Hh : spec_stateHash s1 b = spec_stateHash s b) by (by rewrite E).
    assert (Hc : counterRequest s1 = counterRequest s + 1) by (by rewrite E).
    assert (Hd : decryptionContexts s1
                 = <[counterRequest s :=
                       mkContext b (spec_stateHash s b) false caller]>
                     (decryptionContexts s)) by (by rewrite E).
    rewrite E2. unfold decryptionContexts_at, rd. simpl.
    rewrite Hh, Hc, Hd. rewrite lookup_insert_eq.
    rewrite lookup_insert_ne by lia. by rewrite lookup_insert_eq.
  - intros flags. unfold succeeds.
    revert Hok. rewrite !requestBatchDecryption_eq. simpl.
    destruct (paused s); [done|].
    rewrite !rateLimited_request_eq. unfold lastRequestAt_at. simpl.
    destruct (now <? _); [done|].
    destruct (_ <? cooldownInterval s); [done|].
    rewrite !requestBatchDecryption_body_eq. cbv zeta.
    unfold batches_at, encryptedScores_at, rd. simpl.
    repeat case_match; done.
Qed.

End Requests.

Section WebClient.

Lemma count_three_way (mods : list App.FHEMod) :
  (App.verifiedCount mods + App.pendingCount mods + App.rejectedCount mods
   ≤ length mods)%nat ∧
  (Forall App.status_typed mods →
   (App.verifiedCount mods + App.pendingCount mods + App.rejectedCount mods
    = length mods)%nat).
Proof.
  unfold App.verifiedCount, App.pendingCount, App.rejectedCount.
  induction mods as [|m mods [IH1 IH2]]; [done|].
  rewrite !filter_cons.
  split.
  - repeat case_decide; simpl; try lia; congruence.
  - intros Hall. apply Forall_cons in Hall as [Hm Hall].
    specialize (IH2 Hall). unfold App.status_typed in Hm.
    repeat case_decide; simpl; try lia; try congruence.
    destruct Hm as [?|[?|?]]; congruence.
Qed.

(** X22. The list shown by the client is the loaded list with the active
    filters applied, in the loaded order: a mod is shown exactly when it
    is loaded and passes the text search (skipped for an empty query),
    the category filter and the status filter (each skipped for the value
    "all"). With no filter active the whole list is shown. The three
    status counters are the sizes of the three status filters on the
    whole list; they never add up to more than the number of loaded mods,
    and to exactly that number when every status is one of the three
    declared values. *)
Theorem X22_filters_and_counters_agree
    (toLowerCase : string → string) (includes : string → string → bool)
    (searchQuery categoryFilter statusFilter : string)
    (mods : list App.FHEMod) :
  let shown := App.filteredMods toLowerCase includes in
  shown searchQuery categoryFilter statusFilter mods `sublist_of` mods ∧
  (∀ m, m ∈ shown searchQuery categoryFilter statusFilter mods ↔
        m ∈ mods ∧
        (searchQuery ≠ "" →
         App.matches_search toLowerCase includes searchQuery m = true) ∧
        (categoryFilter ≠ "all" → App.category m = categoryFilter) ∧
        (statusFilter ≠ "all" → App.status m = statusFilter)) ∧
  shown "" "all" "all" mods = mods ∧
  length (shown "" "all" "verified" mods) = App.verifiedCount mods ∧
  length (shown "" "all" "pending" mods) = App.pendingCount mods ∧
  length (shown "" "all" "rejected" mods) = App.rejectedCount mods ∧
  (App.verifiedCount mods + App.pendingCount mods + App.rejectedCount mods
   ≤ length mods)%nat ∧
  (Forall App.status_typed mods →
   (App.verifiedCount mods + App.pendingCount mods + App.rejectedCount mods
    = length mods)%nat).
Proof.
  cbv zeta. split; [|split].
  - unfold App.filteredMods. cbv zeta.
    repeat case_bool_decide;
      repeat (etrans; [apply sublist_filter|]); done.
  - intros m. unfold App.filteredMods. cbv zeta.
    repeat case_bool_decide; rewrite ?list_elem_of_filter; tauto.
  - split; [done|]. do 3 (split; [done|]). apply count_three_way.
Qed.

End WebClient.

(** ** The further properties on concrete runs *)

Section MoreConcrete.

Import Sym Scenario MoreScenario.

Ltac replay := apply play_reaches; vm_compute; reflexivity.
Ltac admit_tx := apply admissibleb_true; vm_compute; reflexivity.

(** X1, witness: the owner pauses and unpauses right after
    initialization. *)
Lemma X1_witness :
  let s := w_state (play genesis initialized_only) in
  alice = owner_ s ∧
  (paused s = false →
   unpause alice s = Revert (RequireFailed "Not paused")).
Proof.
  cbv zeta.
  assert (Ho : alice = owner_ (w_state (play genesis initialized_only)))
    by (vm_compute; reflexivity).
  split; [exact Ho|].
  exact (proj1 (proj2 (X1_pause_then_unpause_restores_storage _ alice Ho))).
Defined.

(** X3, witness: the owner grants the provider role to bob and takes it
    back. *)
Lemma X3_witness :
  let s := w_state (play genesis initialized_only) in
  alice = owner_ s ∧
  ∃ s1 s2,
    addProvider alice bob s = Ok (tt, s1) ∧
    isProvider_at s1 bob = true ∧
    removeProvider alice bob s1 = Ok (tt, s2) ∧
    isProvider_at s2 bob = false.
Proof.
  cbv zeta.
  assert (Ho : alice = owner_ (w_state (play genesis initialized_only)))
    by (vm_compute; reflexivity).
  split; [exact Ho|].
  destruct (X3_provider_role_is_granted_and_revoked _ alice bob Ho)
    as (s1 & s2 & H1 & H2 & H3 & H4 & _).
  exists s1, s2. repeat split; assumption.
Defined.

(** X4, witness: the bounds right after initialization. *)
Lemma X4_witness :
  let w := play genesis initialized_only in
  reachable w ∧
  MIN_INTERVAL ≤ cooldownInterval (w_state w) ∧
  1 ≤ maxBatchSize (w_state w) ≤ MAX_UINT256.
Proof.
  cbv zeta.
  assert (Hw : reachable (play genesis initialized_only)) by replay.
  split; [exact Hw|].
  pose proof (X4_configuration_stays_within_bounds _ Hw) as H.
  cbv zeta in H. split; [exact (proj1 H)|exact (proj1 (proj2 H))].
Defined.

(** X5, witness: bob, who is not the owner, calls [pause]. *)
Lemma X5_witness :
  let w := play genesis initialized_only in
  let t := mkTx bob 100 CPause in
  initialized_ (w_state w) = true ∧
  tx_sender t ≠ owner_ (w_state w) ∧
  paused (w_state (apply_tx w t)) = paused (w_state w).
Proof.
  cbv zeta.
  assert (Hi : initialized_ (w_state (play genesis initialized_only)) = true)
    by (vm_compute; reflexivity).
  assert (Ho : tx_sender (mkTx bob 100 CPause)
               ≠ owner_ (w_state (play genesis initialized_only)))
    by (vm_compute; discriminate).
  split; [exact Hi|]. split; [exact Ho|].
  exact (proj1 (proj2 (X5_only_the_owner_changes_the_settings _ _ Hi Ho))).
Defined.

(** X6, witness: the owner opens batch 2. *)
Lemma X6_witness :
  let w := play genesis one_recorded in
  let t := mkTx alice 130 COpenBatch in
  reachable w ∧ admissible w t ∧
  currentBatchId (w_state w) ≤ currentBatchId (w_state (apply_tx w t))
    ≤ currentBatchId (w_state w) + 1.
Proof.
  cbv zeta.
  assert (Hw : reachable (play genesis one_recorded)) by replay.
  assert (Ht : admissible (play genesis one_recorded)
                 (mkTx alice 130 COpenBatch)) by admit_tx.
  split; [exact Hw|]. split; [exact Ht|].
  exact (proj2 (proj2 (X6_batch_ids_are_sequential _ _ Hw Ht))).
Defined.

(** X7, witness: the registry after ["m1"] landed in batch 1. *)
Lemma X7_witness :
  let w := play genesis one_recorded in
  reachable w ∧
  ∀ b m, m ∈ modIds (batches_at (w_state w) b) →
    modSubmitters_at (w_state w) m ≠ 0 ∧ modBatchIds_at (w_state w) m = b.
Proof.
  cbv zeta.
  assert (Hw : reachable (play genesis one_recorded)) by replay.
  split; [exact Hw|].
  exact (proj1 (X7_registry_and_batch_lists_agree _ Hw)).
Defined.

(** X8, witness: ["m2"] is appended to batch 1. *)
Lemma X8_witness :
  let w := play genesis one_recorded in
  let t := mkTx alice 130 (CSubmitEncryptedMod 2 (Input 5 2)) in
  let ba := batches_at (w_state w) 1 in
  reachable w ∧ admissible w t ∧ batches (w_state w) !! 1 = Some ba ∧
  ∀ w', reaches w w' →
    ∃ ba', batches (w_state w') !! 1 = Some ba' ∧
           modIds ba `prefix_of` modIds ba' ∧
           modCount ba ≤ modCount ba'.
Proof.
  cbv zeta.
  assert (Hw : reachable (play genesis one_recorded)) by replay.
  assert (Ht : admissible (play genesis one_recorded)
                 (mkTx alice 130 (CSubmitEncryptedMod 2 (Input 5 2))))
    by admit_tx.
  assert (Hb : batches (w_state (play genesis one_recorded)) !! 1
               = Some (batches_at (w_state (play genesis one_recorded)) 1))
    by (vm_compute; reflexivity).
  split; [exact Hw|]. split; [exact Ht|]. split; [exact Hb|].
  exact (proj2 (X8_batch_lists_are_append_only _ _ 1 _ Hw Ht Hb)).
Defined.

(** X9, witness: batch 1 is closed with ["m1"] in it; later batch 2 is
    opened and filled and the decryption of batch 1 is requested. *)
Lemma X9_witness :
  let w := play genesis closed_with_submission in
  let w' := play w after_the_close in
  let ba := batches_at (w_state w) 1 in
  reachable w ∧ reaches w w' ∧
  batches (w_state w) !! 1 = Some ba ∧ isOpen ba = false ∧
  batches (w_state w') !! 1 = Some ba ∧
  spec_stateHash (w_state w') 1 = spec_stateHash (w_state w) 1.
Proof.
  cbv zeta.
  assert (Hw : reachable (play genesis closed_with_submission)) by replay.
  assert (Hr : reaches (play genesis closed_with_submission)
                 (play (play genesis closed_with_submission) after_the_close))
    by replay.
  assert (Hb : batches (w_state (play genesis closed_with_submission)) !! 1
               = Some (batches_at
                         (w_state (play genesis closed_with_submission)) 1))
    by (vm_compute; reflexivity).
  assert (Hc : isOpen (batches_at
                         (w_state (play genesis closed_with_submission)) 1)
               = false) by (vm_compute; reflexivity).
  split; [exact Hw|]. split; [exact Hr|]. split; [exact Hb|].
  split; [exact Hc|].
  pose proof (X9_closed_batch_has_a_stable_commitment _ _ 1 _ Hw Hr Hb Hc) as H.
  split; [exact (proj1 H)|exact (proj2 (proj2 (proj2 H)))].
Defined.

(** X10, witness: ["m1"] was submitted with an uninitialized handle; batch
    1 cannot be decrypted, also not after a second submission. *)
Lemma X10_witness :
  let w := play genesis unset_score in
  let w' := play w [mkTx alice 130 (CSubmitEncryptedMod 2 (Input 5 2))] in
  reachable w ∧ reaches w w' ∧
  1 ∈ modIds (batches_at (w_state w) 1) ∧
  FHE_isInitialized (encryptedScores_at (w_state w) 1) = false ∧
  ∀ sender now,
    succeeds (requestBatchDecryption sender now 1) (w_state w') = false.
Proof.
  cbv zeta.
  assert (Hw : reachable (play genesis unset_score)) by replay.
  assert (Hr : reaches (play genesis unset_score)
                 (play (play genesis unset_score)
                    [mkTx alice 130 (CSubmitEncryptedMod 2 (Input 5 2))]))
    by replay.
  assert (Hin : 1 ∈ modIds (batches_at (w_state (play genesis unset_score)) 1))
    by (vm_compute; apply list_elem_of_here).
  assert (Hbad : FHE_isInitialized
                   (encryptedScores_at (w_state (play genesis unset_score)) 1)
                 = false) by (vm_compute; reflexivity).
  split; [exact Hw|]. split; [exact Hr|]. split; [exact Hin|].
  split; [exact Hbad|].
  exact (proj2 (X10_uninitialized_score_blocks_the_batch _ _ 1 1 Hw Hr Hin Hbad)).
Defined.

(** X11, witness: request 0 of bob, and a second request later. *)
Lemma X11_witness :
  let w := play genesis one_submission in
  let w' := play w [mkTx carol 200 (CRequestBatchDecryption 1)] in
  reachable w ∧ reaches w w' ∧ 0 ≤ 0 < counterRequest (w_state w) ∧
  stateHash (decryptionContexts_at (w_state w') 0)
  = stateHash (decryptionContexts_at (w_state w) 0).
Proof.
  cbv zeta.
  assert (Hw : reachable (play genesis one_submission)) by replay.
  assert (Hr : reaches (play genesis one_submission)
                 (play (play genesis one_submission)
                    [mkTx carol 200 (CRequestBatchDecryption 1)])) by replay.
  assert (Hi : 0 ≤ 0 < counterRequest (w_state (play genesis one_submission)))
    by (vm_compute; split; [discriminate|reflexivity]).
  split; [exact Hw|]. split; [exact Hr|]. split; [exact Hi|].
  pose proof (X11_issued_contexts_are_immutable _ _ 0 Hw Hr Hi) as H.
  cbv zeta in H. exact (proj1 (proj2 (proj2 (proj2 (proj2 (proj2 H)))))).
Defined.

(** X12, witness: the log grows from one submission to the request. *)
Lemma X12_witness :
  let w := play genesis one_recorded in
  let w' := play w [mkTx bob 100 (CRequestBatchDecryption 1)] in
  reachable w ∧ reaches w w' ∧
  log (w_state w) `prefix_of` log (w_state w').
Proof.
  cbv zeta.
  assert (Hw : reachable (play genesis one_recorded)) by replay.
  assert (Hr : reaches (play genesis one_recorded)
                 (play (play genesis one_recorded)
                    [mkTx bob 100 (CRequestBatchDecryption 1)])) by replay.
  split; [exact Hw|]. split; [exact Hr|].
  exact (proj1 (X12_event_log_is_append_only _ _ Hw Hr)).
Defined.

(** X13, witness: the log and the list of batch 1 after two
    submissions. *)
Lemma X13_witness :
  let w := play genesis two_submissions in
  reachable w ∧
  submitted_in_log 1 (log (w_state w)) = modIds (batches_at (w_state w) 1).
Proof.
  cbv zeta.
  assert (Hw : reachable (play genesis two_submissions)) by replay.
  split; [exact Hw|].
  exact (X13_submissions_are_logged_in_order _ 1 Hw).
Defined.

(** X14, witness: alice submits ["m1"] at time 100 and tries ["m2"] ten
    seconds later. *)
Lemma X14_witness :
  let s := w_state (play genesis initialized_only) in
  let s' := w_state (play genesis one_recorded) in
  submitEncryptedMod alice 100 1 (Input 10 1) s = Ok (tt, s') ∧
  lastSubmissionAt_at s' alice = 100 ∧
  (100 ≤ 110 →
   (110 - 100 < cooldownInterval s →
    submitEncryptedMod alice 110 2 (Input 5 2) s' = Revert RateLimited)).
Proof.
  cbv zeta.
  assert (Hok : submitEncryptedMod alice 100 1 (Input 10 1)
                  (w_state (play genesis initialized_only))
                = Ok (tt, w_state (play genesis one_recorded)))
    by (vm_compute; reflexivity).
  split; [exact Hok|].
  pose proof (X14_second_submission_waits_for_the_cooldown _ _ _ _ _ _ Hok) as H.
  split; [exact (proj1 H)|].
  intros Hle. exact (proj1 (proj2 (proj2 (proj2 H)) 110 2 (Input 5 2) Hle)).
Defined.

(** X15, witness: the owner opens batch 2 after ["m1"] landed in
    batch 1. *)
Lemma X15_witness :
  let w := play genesis one_recorded in
  let s := w_state w in
  reachable w ∧ currentBatchId s + 1 ≤ MAX_UINT256 ∧
  ∃ s', openBatch (owner_ s) s = Ok (tt, s') ∧
        currentBatchId s' = currentBatchId s + 1 ∧
        batches s !! (currentBatchId s + 1) = None.
Proof.
  cbv zeta.
  assert (Hw : reachable (play genesis one_recorded)) by replay.
  assert (Hroom : currentBatchId (w_state (play genesis one_recorded)) + 1
                  ≤ MAX_UINT256) by (vm_compute; discriminate).
  split; [exact Hw|]. split; [exact Hroom|].
  destruct (X15_openBatch_starts_an_empty_current_batch _ Hw Hroom)
    as (s' & H1 & H2 & H3 & _).
  exists s'. repeat split; assumption.
Defined.

(** X16, witness: batch 5 was never opened. *)
Lemma X16_witness :
  let w := play genesis one_recorded in
  reachable w ∧ ¬ (1 ≤ 5 ≤ currentBatchId (w_state w)) ∧
  closeBatch (owner_ (w_state w)) 5 (w_state w) = Revert InvalidBatch.
Proof.
  cbv zeta.
  assert (Hw : reachable (play genesis one_recorded)) by replay.
  assert (Hout : ¬ (1 ≤ 5 ≤ currentBatchId (w_state (play genesis one_recorded))))
    by (vm_compute; intros [_ H]; apply H; reflexivity).
  split; [exact Hw|]. split; [exact Hout|].
  pose proof (X16_unopened_batch_is_invalid _ 5 Hw Hout) as H.
  cbv zeta in H. exact (proj1 (proj2 H)).
Defined.

(** X17, witness: only request 0 was issued; a callback for request 3. *)
Lemma X17_witness :
  let w := play genesis one_submission in
  (∀ cts a, keccak256_encode cts a ≠ 0) ∧
  reachable w ∧ ¬ (0 ≤ 3 < counterRequest (w_state w)) ∧
  ∀ sender cleartexts proof,
    handleDecryptionCallback sender 3 cleartexts proof (w_state w)
    = Revert InvalidStateHash.
Proof.
  cbv zeta.
  assert (Hk : ∀ cts a, keccak256_encode cts a ≠ 0)
    by exact (@keccak_nonzero _ Sym_ideal).
  assert (Hw : reachable (play genesis one_submission)) by replay.
  assert (Hu : ¬ (0 ≤ 3 < counterRequest (w_state (play genesis one_submission))))
    by (vm_compute; intros [_ H]; discriminate H).
  split; [exact Hk|]. split; [exact Hw|]. split; [exact Hu|].
  exact (proj2 (X17_callback_for_unknown_request_reverts Hk _ 3 Hw Hu)).
Defined.

(** X18, witness: ["m1"] with score 10 is added to the empty batch 1. *)
Lemma X18_witness :
  let w := play genesis initialized_only in
  let s' := w_state (play genesis one_recorded) in
  reachable w ∧
  submitEncryptedMod alice 100 1 (Input 10 1) (w_state w) = Ok (tt, s') ∧
  spec_recomputeAggregate s' (currentBatchId (w_state w))
  = FHE_add (spec_recomputeAggregate (w_state w) (currentBatchId (w_state w)))
      (Input 10 1).
Proof.
  cbv zeta.
  assert (Hw : reachable (play genesis initialized_only)) by replay.
  assert (Hok : submitEncryptedMod alice 100 1 (Input 10 1)
                  (w_state (play genesis initialized_only))
                = Ok (tt, w_state (play genesis one_recorded)))
    by (vm_compute; reflexivity).
  split; [exact Hw|]. split; [exact Hok|].
  exact (proj1 (X18_submission_extends_the_aggregate _ _ _ _ _ _ Hw Hok)).
Defined.

(** X19, witness: [initialize] on the deployed contract. *)
Lemma X19_witness :
  let w := genesis in
  let s' := w_state (play genesis initialized_only) in
  reachable w ∧
  initialize alice (w_state w) = Ok (tt, s') ∧
  isProvider_at s' (owner_ s') = true ∧
  modelVersion s' = 1 ∧ currentBatchId s' = 1.
Proof.
  cbv zeta.
  assert (Hw : reachable genesis) by apply reaches_refl.
  assert (Hok : initialize alice (w_state genesis)
                = Ok (tt, w_state (play genesis initialized_only)))
    by (vm_compute; reflexivity).
  split; [exact Hw|]. split; [exact Hok|].
  pose proof (proj2 (X19_initialize_sets_up_batch_one _ Hw) _ _ Hok) as H.
  split; [exact (proj1 H)|].
  split; [exact (proj1 (proj2 H))|exact (proj1 (proj2 (proj2 H)))].
Defined.

(** X20, witness: the owner closes batch 1, which holds ["m1"]. *)
Lemma X20_witness :
  let s := w_state (play genesis one_recorded) in
  let s' := w_state (play genesis closed_with_submission) in
  closeBatch alice 1 s = Ok (tt, s') ∧
  (∀ b', spec_stateHash s' b' = spec_stateHash s b') ∧
  closeBatch alice 1 s' = Revert InvalidBatch.
Proof.
  cbv zeta.
  assert (Hok : closeBatch alice 1 (w_state (play genesis one_recorded))
                = Ok (tt, w_state (play genesis closed_with_submission)))
    by (vm_compute; reflexivity).
  split; [exact Hok|].
  pose proof (X20_closeBatch_flips_the_flag_only _ _ _ _ Hok) as H.
  split; [exact (proj1 (proj2 (proj2 (proj2 (proj2 (proj2 H))))))|].
  exact (proj2 (proj2 (proj2 (proj2 (proj2 (proj2 (proj2 H))))))).
Defined.

(** X21, witness: bob requests the decryption of batch 1; the request
    gets id 0. *)
Lemma X21_witness :
  let s := w_state (play genesis one_recorded) in
  let s1 := w_state (play genesis (one_recorded
                       ++ [mkTx bob 100 (CRequestBatchDecryption 1)])) in
  requestBatchDecryption bob 100 1 s = Ok (tt, s1) ∧
  counterRequest s1 = counterRequest s + 1 ∧
  batches s1 = batches s.
Proof.
  cbv zeta.
  assert (Hok : requestBatchDecryption bob 100 1
                  (w_state (play genesis one_recorded))
                = Ok (tt, w_state (play genesis (one_recorded
                       ++ [mkTx bob 100 (CRequestBatchDecryption 1)]))))
    by (vm_compute; reflexivity).
  split; [exact Hok|].
  pose proof (X21_requests_take_successive_ids _ _ _ _ _ Hok) as H. cbv zeta in H.
  split; [exact (proj1 H)|].
  exact (proj1 (proj2 (proj2 (proj2 (proj2 H))))).
Defined.

End MoreConcrete.
